(** * A per-field locked record store and its replay driver

    Shallow embedding of [c++ 4.cpp]: the class [LabThreadSafeData]
    (a vector of [int] fields with per-field and global operation counters),
    the workload generator [generateFile] and the replay loop [executeFile].

    Conventions.
    - An [int] is a [Z] in the 32-bit two's complement range, a [size_t] is a
      [Z] in [0, 2^64); the increment of a [std::atomic<size_t>] wraps.
    - A [std::vector] is a [list]; [v[i]] outside the vector is undefined
      behaviour and is modelled by [None].
    - A [double] is a [spec_float] of the binary64 format.
    - A method that acquires a lock and releases it before it returns leaves
      the locks as it found them, so the sequential model of the store has no
      lock component; the locks are modelled on their own in [Module Locks]. *)

From Stdlib Require Import ZArith List String Ascii Bool Lia Permutation.
From Stdlib Require Import Numbers.DecimalString Numbers.DecimalPos.
From Stdlib Require Import Floats.SpecFloat.
From stdpp Require Import base list relations.
Import ListNotations.

Local Open Scope Z_scope.

(** ** Machine integers *)

Definition SIZE_MODULUS : Z := Eval cbv in 2 ^ 64.
Definition INT_MAX : Z := 2147483647.
Definition INT_MIN : Z := -2147483648.

(** [size_t] arithmetic is modulo [2^64]. *)
Definition wrap_size_t (z : Z) : Z := z mod SIZE_MODULUS.

(** [++c] on a [std::atomic<size_t>]. *)
Definition incr (c : Z) : Z := wrap_size_t (c + 1).

(** Conversion of an [int] argument to a [size_t] parameter. *)
Definition size_t_of_int (i : Z) : Z := wrap_size_t i.

(** Conversion of a [size_t] to [int] (the cast [(int)ops.size()]). *)
Definition int_of_size_t (z : Z) : Z :=
  let r := z mod 4294967296 in
  if r <=? INT_MAX then r else r - 4294967296.

(** ** Vectors *)

Definition in_range {A} (v : list A) (i : Z) : bool :=
  (0 <=? i) && (i <? Z.of_nat (length v)).

(** [v[i]], read. *)
Definition vec_get {A} (v : list A) (i : Z) : option A :=
  if in_range v i then v !! Z.to_nat i else None.

(** [v[i] = x]. *)
Definition vec_set {A} (v : list A) (i : Z) (x : A) : option (list A) :=
  if in_range v i then Some (<[Z.to_nat i := x]> v) else None.

Fixpoint sumZ (l : list Z) : Z :=
  match l with
  | [] => 0
  | x :: l' => x + sumZ l'
  end.

Notation "'let*' x ':=' m 'in' f" :=
  (match m with Some x => f | None => None end)
  (at level 10, x pattern, m at level 100, f at level 200, only parsing).

(** ** Text output of an [int]: [oss << fields[i]] *)

Definition show_int (x : Z) : string := NilZero.string_of_int (Z.to_int x).

(** ** The record store *)

Record LabThreadSafeData : Type := mkData {
  fields : list Z;
  read_count : list Z;
  write_count : list Z;
  string_count : Z;
  total_ops : Z
}.

(** The constructor [LabThreadSafeData(size_t m)]. *)
Definition LabThreadSafeData_ctor (m : nat) : LabThreadSafeData :=
  {| fields := replicate m 0;
     read_count := replicate m 0;
     write_count := replicate m 0;
     string_count := 0;
     total_ops := 0 |}.

Definition readField (d : LabThreadSafeData) (index : Z)
  : option (Z * LabThreadSafeData) :=
  let* rc := vec_get (read_count d) index in
  let* rcs := vec_set (read_count d) index (incr rc) in
  let d1 := {| fields := fields d; read_count := rcs;
               write_count := write_count d;
               string_count := string_count d;
               total_ops := incr (total_ops d) |} in
  let* x := vec_get (fields d1) index in
  Some (x, d1).

Definition writeField (d : LabThreadSafeData) (index : Z) (value : Z)
  : option LabThreadSafeData :=
  let* wc := vec_get (write_count d) index in
  let* wcs := vec_set (write_count d) index (incr wc) in
  let* fs := vec_set (fields d) index value in
  Some {| fields := fs; read_count := read_count d;
          write_count := wcs;
          string_count := string_count d;
          total_ops := incr (total_ops d) |}.

(** The loop of [operator std::string]: [rest] holds [fields[i..]], so its
    head is [fields[i]]; [size] is [fields.size()]. *)
Fixpoint render_loop (size : Z) (i : Z) (rest : list Z) (oss : string) : string :=
  match rest with
  | [] => oss
  | x :: rest' =>
      let oss1 := (oss ++ show_int x)%string in
      let oss2 := if i =? wrap_size_t (size - 1) then oss1
                  else (oss1 ++ ", ")%string in
      render_loop size (wrap_size_t (i + 1)) rest' oss2
  end.

(** [operator std::string()]. *)
Definition operator_string (d : LabThreadSafeData) : string * LabThreadSafeData :=
  let s := render_loop (Z.of_nat (length (fields d))) 0 (fields d) EmptyString in
  (s, {| fields := fields d; read_count := read_count d;
         write_count := write_count d;
         string_count := incr (string_count d);
         total_ops := incr (total_ops d) |}).

(** ** Sequences of calls on one store *)

Inductive call : Type :=
| CallRead (index : Z)
| CallWrite (index : Z) (value : Z)
| CallString.

Definition do_call (c : call) (d : LabThreadSafeData) : option LabThreadSafeData :=
  match c with
  | CallRead i => let* r := readField d i in Some (snd r)
  | CallWrite i v => writeField d i v
  | CallString => Some (snd (operator_string d))
  end.

Fixpoint run (cs : list call) (d : LabThreadSafeData) : option LabThreadSafeData :=
  match cs with
  | [] => Some d
  | c :: cs' => let* d1 := do_call c d in run cs' d1
  end.

Definition valid_call (m : nat) (c : call) : Prop :=
  match c with
  | CallRead i | CallWrite i _ => 0 <= i < Z.of_nat m
  | CallString => True
  end.

(** ** Input streams: [std::istringstream] and the extractors [>>]

    The replay loop observes a stream only through [>>], so one flag is
    enough for its state: [good] is false as soon as [eofbit] or [failbit]
    is set, and every later extraction then fails in its sentry and leaves
    its target untouched. *)

Record istringstream : Type := mkStream {
  buf : string;      (* the characters not yet read *)
  good : bool
}.

(** [isspace] in the "C" locale. *)
Definition isspace (c : ascii) : bool :=
  let n := nat_of_ascii c in
  (Nat.eqb n 32 || (Nat.leb 9 n && Nat.leb n 13))%bool.

Definition isdigit (c : ascii) : bool :=
  let n := nat_of_ascii c in (Nat.leb 48 n && Nat.leb n 57)%bool.

Definition digit_value (c : ascii) : Z := Z.of_nat (nat_of_ascii c) - 48.

Fixpoint skipws (s : string) : string :=
  match s with
  | String c s' => if isspace c then skipws s' else s
  | EmptyString => EmptyString
  end.

(** The longest prefix without white space, and what follows it. *)
Fixpoint take_word (s : string) : string * string :=
  match s with
  | String c s' =>
      if isspace c then (EmptyString, s)
      else let (w, r) := take_word s' in (String c w, r)
  | EmptyString => (EmptyString, EmptyString)
  end.

(** The longest prefix of decimal digits, as a number, how many digits it
    has, and what follows it. *)
Fixpoint take_digits (s : string) (acc : Z) (n : nat) : Z * nat * string :=
  match s with
  | String c s' =>
      if isdigit c then take_digits s' (10 * acc + digit_value c) (S n)
      else (acc, n, s)
  | EmptyString => (acc, n, EmptyString)
  end.

Definition is_empty (s : string) : bool :=
  match s with EmptyString => true | _ => false end.

(** The sentry of a formatted input function, with [skipws] set. *)
Definition sentry (st : istringstream) : bool * istringstream :=
  if good st then
    let b := skipws (buf st) in
    if is_empty b then (false, mkStream EmptyString false)
    else (true, mkStream b true)
  else (false, st).

(** [iss >> cmd] for a [std::string cmd] holding [cur]. *)
Definition extract_string (st : istringstream) (cur : string)
  : string * istringstream :=
  match sentry st with
  | (true, st1) =>
      let (w, r) := take_word (buf st1) in
      (w, mkStream r (negb (is_empty r)))
  | (false, st1) => (cur, st1)
  end.

(** [iss >> x] for an [int x]: [Some v] when [v] is stored into [x] (also on
    a failed conversion, which stores 0, or [INT_MAX]/[INT_MIN] on overflow),
    [None] when the sentry fails and [x] keeps what it held. *)
Definition extract_int (st : istringstream) : option Z * istringstream :=
  match sentry st with
  | (true, st1) =>
      let (neg, body) :=
        match buf st1 with
        | String "-" r => (true, r)
        | String "+" r => (false, r)
        | b => (false, b)
        end in
      let '(mag, n, r) := take_digits body 0 O in
      match n with
      | O => (Some 0, mkStream r false)
      | S _ =>
          let v := if neg then - mag else mag in
          if v <? INT_MIN then (Some INT_MIN, mkStream r false)
          else if INT_MAX <? v then (Some INT_MAX, mkStream r false)
          else (Some v, mkStream r (negb (is_empty r)))
      end
  | (false, st1) => (None, st1)
  end.

(** ** The replay loop [executeFile] *)

(** The body of the [while] loop for one [line]. An [int] that no
    extraction has stored into is read uninitialised: undefined, [None]. *)
Definition exec_line (data : LabThreadSafeData) (line : string)
  : option LabThreadSafeData :=
  let iss := mkStream line true in
  let (cmd, iss1) := extract_string iss EmptyString in
  if (cmd =? "write")%string then
    let (idx, iss2) := extract_int iss1 in
    let (val, iss3) := extract_int iss2 in
    let* idx := idx in
    let* val := val in
    writeField data (size_t_of_int idx) val
  else if (cmd =? "read")%string then
    let (idx, iss2) := extract_int iss1 in
    let* idx := idx in
    let* r := readField data (size_t_of_int idx) in
    Some (snd r)
  else if (cmd =? "string")%string then
    Some (snd (operator_string data))
  else Some data.

Definition newline : ascii := ascii_of_nat 10.

(** One [std::getline(fin, line)]: the line and the rest of the file, or
    [None] at the end of the file. *)
Fixpoint until_newline (s : string) : string * string :=
  match s with
  | String c s' =>
      if Ascii.eqb c newline then (EmptyString, s')
      else let (l, r) := until_newline s' in (String c l, r)
  | EmptyString => (EmptyString, EmptyString)
  end.

Definition getline (s : string) : option (string * string) :=
  match s with
  | EmptyString => None
  | _ => Some (until_newline s)
  end.

(** All the lines that successive [getline] calls return. *)
Fixpoint getlines (s : string) : list string :=
  match s with
  | EmptyString => []
  | String c s' =>
      if Ascii.eqb c newline then EmptyString :: getlines s'
      else match getlines s' with
           | [] => [String c EmptyString]
           | l :: ls => String c l :: ls
           end
  end.

Fixpoint exec_lines (data : LabThreadSafeData) (ls : list string)
  : option LabThreadSafeData :=
  match ls with
  | [] => Some data
  | l :: ls' => let* d1 := exec_line data l in exec_lines d1 ls'
  end.

(** [executeFile(data, filename)]; [file] is the content of the file named
    [filename], [None] when it cannot be opened (the first [getline] then
    fails and the loop body never runs). *)
Definition executeFile (data : LabThreadSafeData) (file : option string)
  : option LabThreadSafeData :=
  match file with
  | None => Some data
  | Some content => exec_lines data (getlines content)
  end.

Definition nl : string := String newline EmptyString.

(** ** Doubles *)

Definition double : Type := spec_float.
Definition dmul : double -> double -> double := SFmul 53 1024.
Definition ddiv : double -> double -> double := SFdiv 53 1024.

(** Conversion of an integer ([int] or [size_t]) to [double]: the nearest
    binary64 number. *)
Definition double_of_Z (z : Z) : double := binary_normalize 53 1024 z 0 false.

(** [static_cast<int>(x)]: truncation toward zero; undefined when the
    truncated value is not an [int]. *)
Definition int_of_double (x : double) : option Z :=
  match x with
  | S754_zero _ => Some 0
  | S754_finite s m e =>
      let a := Z.shiftl (Zpos m) e in
      let v := if s then - a else a in
      if (INT_MIN <=? v) && (v <=? INT_MAX) then Some v else None
  | S754_infinity _ | S754_nan => None
  end.

Definition d100 : double := double_of_Z 100.
Definition dzero : double := S754_zero false.

(** ** The workload generator [generateFile] *)

Record OpsPercent : Type := mkPercent {
  read1 : double;
  write1 : double;
  read2 : double;
  write2 : double;
  read3 : double;
  write3 : double;
  string_op : double
}.

(** [static_cast<int>(num_ops * p / 100.0)]. *)
Definition op_count (num_ops : Z) (p : double) : option Z :=
  int_of_double (ddiv (dmul (double_of_Z num_ops) p) d100).

(** [for (int i = 0; i < n; ++i) ops.push_back(op)]. *)
Definition push_back_n (ops : list string) (n : Z) (op : string) : list string :=
  ops ++ replicate (Z.to_nat n) op.

(** [while ((int)ops.size() < num_ops) ops.push_back("string")], at most
    [fuel] tests of the condition. *)
Fixpoint pad_loop (fuel : nat) (ops : list string) (num_ops : Z)
  : option (list string) :=
  match fuel with
  | O => None
  | S fuel' =>
      if int_of_size_t (Z.of_nat (length ops)) <? num_ops
      then pad_loop fuel' (ops ++ ["string"%string]) num_ops
      else Some ops
  end.

(** The vector [ops] after the seven [for] loops. *)
Definition kind_ops (num_ops : Z) (percents : OpsPercent)
  : option (list string) :=
  let* num_read1 := op_count num_ops (read1 percents) in
  let* num_write1 := op_count num_ops (write1 percents) in
  let* num_read2 := op_count num_ops (read2 percents) in
  let* num_write2 := op_count num_ops (write2 percents) in
  let* num_read3 := op_count num_ops (read3 percents) in
  let* num_write3 := op_count num_ops (write3 percents) in
  let* num_string := op_count num_ops (string_op percents) in
  let ops := push_back_n [] num_read1 "read 0" in
  let ops := push_back_n ops num_write1 "write 0 1" in
  let ops := push_back_n ops num_read2 "read 1" in
  let ops := push_back_n ops num_write2 "write 1 1" in
  let ops := push_back_n ops num_read3 "read 2" in
  let ops := push_back_n ops num_write3 "write 2 1" in
  let ops := push_back_n ops num_string "string" in
  Some ops.

(** The vector [ops] before it is shuffled. *)
Definition generate_ops (fuel : nat) (num_ops : Z) (percents : OpsPercent)
  : option (list string) :=
  let* ops := kind_ops num_ops percents in
  pad_loop fuel ops num_ops.

(** [for (const auto& op : ops) fout << op << "\n"]. *)
Fixpoint write_lines (ops : list string) : string :=
  match ops with
  | [] => EmptyString
  | op :: ops' => (op ++ nl ++ write_lines ops')%string
  end.

(** [generateFile] returns the content of the file it writes; [shuffle] is
    what [std::shuffle] does with the generator it is given. *)
Definition generateFile (shuffle : list string -> list string)
    (fuel : nat) (num_ops : Z) (percents : OpsPercent) : option string :=
  let* ops := generate_ops fuel num_ops percents in
  Some (write_lines (shuffle ops)).

(** The literal [14.29], and the percentages [percents_b] of [main]. *)
Definition d14_29 : double := ddiv (double_of_Z 1429) d100.
Definition percents_b : OpsPercent :=
  mkPercent d14_29 d14_29 d14_29 d14_29 d14_29 d14_29 d14_29.

(** Seven percentages of 50 each. *)
Definition d50 : double := double_of_Z 50.
Definition percents_50 : OpsPercent :=
  mkPercent d50 d50 d50 d50 d50 d50 d50.

(** ** Statistics: [printStats] *)

(** What is inserted into [std::cout], item by item. *)
Inductive out_item : Type :=
| OutText (s : string)
| OutSize (n : Z)
| OutDouble (x : double).

(** [100.0 * count / ops] with [count] and [ops] of type [size_t]. *)
Definition percentage (count ops : Z) : double :=
  ddiv (dmul d100 (double_of_Z count)) (double_of_Z ops).

(** [size_t ops = total_ops.load(); if (ops == 0) ops = 1;] *)
Definition stats_divisor (d : LabThreadSafeData) : Z :=
  let ops := total_ops d in
  if ops =? 0 then 1 else ops.

(** The loop of [printStats], [n] iterations from index [i]. *)
Fixpoint stats_loop (d : LabThreadSafeData) (ops : Z) (i : Z) (n : nat)
    (out : list out_item) : option (list out_item) :=
  match n with
  | O => Some out
  | S n' =>
      let* rc := vec_get (read_count d) i in
      let r := percentage rc ops in
      let* wc := vec_get (write_count d) i in
      let w := percentage wc ops in
      stats_loop d ops (wrap_size_t (i + 1)) n'
        (out ++ [OutText "Field "; OutSize i; OutText ": "; OutDouble r;
                 OutText "% / "; OutDouble w; OutText ("%" ++ nl)])
  end.

Definition printStats (d : LabThreadSafeData) : option (list out_item) :=
  let ops := stats_divisor d in
  let out := [OutText ("Field stats (Read%, Write%):" ++ nl)] in
  let* out := stats_loop d ops 0 (length (fields d)) out in
  let s := percentage (string_count d) ops in
  Some (out ++ [OutText "String requests: "; OutDouble s; OutText ("%" ++ nl)]).

(** ** The locks

    What the three methods do to the [std::shared_mutex] of each field, and
    the interleavings of several workers that replay their calls. *)

Module Locks.

Record shared_mutex : Type := mkMutex {
  readers : nat;     (* holders of the shared lock *)
  writer : bool      (* is the exclusive lock held *)
}.

Definition unlocked : shared_mutex := mkMutex O false.

Inductive action : Type :=
| LockShared (i : Z)
| UnlockShared (i : Z)
| LockExcl (i : Z)
| UnlockExcl (i : Z).

(** [readField]: the [shared_lock] lives from entry to return. *)
Definition actions_readField (index : Z) : list action :=
  [LockShared index; UnlockShared index].

(** [writeField]: the [unique_lock] lives from entry to return. *)
Definition actions_writeField (index : Z) : list action :=
  [LockExcl index; UnlockExcl index].

(** [operator std::string]: the [shared_lock] is a local of the loop body,
    constructed and destroyed in each of the [n] iterations. *)
Fixpoint actions_string (i : Z) (n : nat) : list action :=
  match n with
  | O => []
  | S n' => LockShared i :: UnlockShared i :: actions_string (i + 1) n'
  end.

Definition actions_of_call (size : nat) (c : call) : list action :=
  match c with
  | CallRead i => actions_readField i
  | CallWrite i _ => actions_writeField i
  | CallString => actions_string 0 size
  end.

Fixpoint program (size : nat) (cs : list call) : list action :=
  match cs with
  | [] => []
  | c :: cs' => actions_of_call size c ++ program size cs'
  end.

(** The effect of an action on the mutexes; [None] when the action has to
    wait ([lock_shared] while a writer holds the mutex, [lock] while anyone
    does). Unlocking never waits. *)
Definition perform (a : action) (ms : list shared_mutex)
  : option (list shared_mutex) :=
  match a with
  | LockShared i =>
      let* m := vec_get ms i in
      if writer m then None
      else vec_set ms i (mkMutex (S (readers m)) false)
  | UnlockShared i =>
      let* m := vec_get ms i in
      vec_set ms i (mkMutex (Nat.pred (readers m)) (writer m))
  | LockExcl i =>
      let* m := vec_get ms i in
      if writer m || negb (Nat.eqb (readers m) 0) then None
      else vec_set ms i (mkMutex O true)
  | UnlockExcl i =>
      let* m := vec_get ms i in
      vec_set ms i (mkMutex (readers m) false)
  end.

Record state : Type := mkState {
  mutexes : list shared_mutex;
  threads : list (list action)     (* what each worker still has to do *)
}.

(** One worker performs its next action. *)
Inductive step : state -> state -> Prop :=
| step_worker (st : state) (k : nat) (a : action) (rest : list action)
    (ms' : list shared_mutex) :
    threads st !! k = Some (a :: rest) ->
    perform a (mutexes st) = Some ms' ->
    step st (mkState ms' (<[k := rest]> (threads st))).

Definition finished (st : state) : Prop :=
  Forall (fun p => p = []) (threads st).

(** The number of actions still to perform. *)
Definition remaining (st : state) : Z :=
  sumZ (map (fun p => Z.of_nat (length p)) (threads st)).

(** A store of [size] fields shared by workers that replay [workers]. *)
Definition init (size : nat) (workers : list (list call)) : state :=
  mkState (replicate size unlocked) (map (program size) workers).

(** The indices a program locks, in the order it locks them. *)
Fixpoint lock_order (p : list action) : list Z :=
  match p with
  | [] => []
  | LockShared i :: p' | LockExcl i :: p' => i :: lock_order p'
  | _ :: p' => lock_order p'
  end.

(** A program of a worker that holds no mutex: lock and unlock in pairs. *)
Inductive paired : list action -> Prop :=
| paired_nil : paired []
| paired_shared (i : Z) (p : list action) :
    paired p -> paired (LockShared i :: UnlockShared i :: p)
| paired_excl (i : Z) (p : list action) :
    paired p -> paired (LockExcl i :: UnlockExcl i :: p).

(** What a worker still has to do: it holds no mutex, or it holds exactly
    one, which it releases next. *)
Definition thread_ok (p : list action) : Prop :=
  paired p
  \/ exists i p', paired p' /\ (p = UnlockShared i :: p' \/ p = UnlockExcl i :: p').

(** Does the worker with program [p] hold mutex [i], shared or exclusive:
    1 or 0. *)
Definition holds_shared (i : Z) (p : list action) : Z :=
  match p with
  | UnlockShared j :: _ => if j =? i then 1 else 0
  | _ => 0
  end.

Definition holds_excl (i : Z) (p : list action) : Z :=
  match p with
  | UnlockExcl j :: _ => if j =? i then 1 else 0
  | _ => 0
  end.

Definition action_index (a : action) : Z :=
  match a with
  | LockShared i | UnlockShared i | LockExcl i | UnlockExcl i => i
  end.

(** The mutexes record exactly what the workers hold. *)
Definition consistent (size : nat) (st : state) : Prop :=
  length (mutexes st) = size
  /\ Forall thread_ok (threads st)
  /\ Forall (Forall (fun a => 0 <= action_index a < Z.of_nat size)) (threads st)
  /\ forall i m, vec_get (mutexes st) i = Some m ->
       Z.of_nat (readers m) = sumZ (map (holds_shared i) (threads st))
       /\ Z.b2z (writer m) = sumZ (map (holds_excl i) (threads st)).

End Locks.

(** ** Vocabulary of the statements *)

(** A store with [m] fields: the three vectors have [m] elements. *)
Definition has_size (m : nat) (d : LabThreadSafeData) : Prop :=
  length (fields d) = m /\ length (read_count d) = m
  /\ length (write_count d) = m.

Definition writes_to (i : Z) (c : call) : Prop :=
  match c with
  | CallWrite j _ => j = i
  | _ => False
  end.

(** The sum of all the kind-specific counters, as an integer. *)
Definition sum_counts (d : LabThreadSafeData) : Z :=
  sumZ (read_count d) + sumZ (write_count d) + string_count d.

(** [l'] is [l] with the counter at [i] incremented, nothing else changed. *)
Definition bumped (l l' : list Z) (i : Z) : Prop :=
  exists c, vec_get l i = Some c /\ l' = <[Z.to_nat i := incr c]> l.

(** What one call does to the counters. *)
Definition counts_one (c : call) (d d' : LabThreadSafeData) : Prop :=
  total_ops d' = incr (total_ops d) /\
  match c with
  | CallRead i =>
      bumped (read_count d) (read_count d') i
      /\ write_count d' = write_count d /\ string_count d' = string_count d
  | CallWrite i _ =>
      bumped (write_count d) (write_count d') i
      /\ read_count d' = read_count d /\ string_count d' = string_count d
  | CallString =>
      string_count d' = incr (string_count d)
      /\ read_count d' = read_count d /\ write_count d' = write_count d
  end.

(** The text a snapshot is specified to return: the values in index order,
    separated by a comma and a space. *)
Definition comma_separated (l : list Z) : string :=
  String.concat ", " (map show_int l).

(** The percentages a report contains, in the order they are printed. *)
Fixpoint reported (out : list out_item) : list double :=
  match out with
  | [] => []
  | OutDouble x :: out' => x :: reported out'
  | _ :: out' => reported out'
  end.

(** The leading token of a line: what [iss >> cmd] stores into [cmd]. *)
Definition leading_token (line : string) : string :=
  fst (extract_string (mkStream line true) EmptyString).

(** The stream after [iss >> cmd]: what the arguments are read from. *)
Definition after_token (line : string) : istringstream :=
  snd (extract_string (mkStream line true) EmptyString).

(** The three tokens the replay loop knows. *)
Definition recognised (cmd : string) : bool :=
  ((cmd =? "write") || (cmd =? "read") || (cmd =? "string"))%string.

Fixpoint has_newline (s : string) : bool :=
  match s with
  | EmptyString => false
  | String c s' => Ascii.eqb c newline || has_newline s'
  end.

(** A text of white space only. *)
Fixpoint all_blank (s : string) : bool :=
  match s with
  | EmptyString => true
  | String c s' => isspace c && all_blank s'
  end.

(** Is the last character of the text a newline. *)
Fixpoint ends_with_newline (s : string) : bool :=
  match s with
  | EmptyString => false
  | String c s' =>
      match s' with
      | EmptyString => Ascii.eqb c newline
      | String _ _ => ends_with_newline s'
      end
  end.

(** The vector [l] with the counter at [i] incremented. *)
Definition bump (l : list Z) (i : Z) : list Z := alter incr (Z.to_nat i) l.

(** The store after a call that is in range, in closed form. *)
Definition effect (c : call) (d : LabThreadSafeData) : LabThreadSafeData :=
  match c with
  | CallRead i =>
      mkData (fields d) (bump (read_count d) i) (write_count d)
             (string_count d) (incr (total_ops d))
  | CallWrite i v =>
      mkData (<[Z.to_nat i := v]> (fields d)) (read_count d)
             (bump (write_count d) i) (string_count d) (incr (total_ops d))
  | CallString =>
      mkData (fields d) (read_count d) (write_count d)
             (incr (string_count d)) (incr (total_ops d))
  end.

(** The store after a sequence of calls that are in range. *)
Definition effects (cs : list call) (d : LabThreadSafeData) : LabThreadSafeData :=
  fold_left (fun d c => effect c d) cs d.

(** Two calls whose order matters for the fields: writes to one field. *)
Definition conflict (c1 c2 : call) : Prop :=
  match c1, c2 with
  | CallWrite i _, CallWrite j _ => i = j
  | _, _ => False
  end.

(** How many calls of [cs] read field [i], write field [i], or convert the
    record to a string. *)
Definition is_read (i : Z) (c : call) : Z :=
  match c with CallRead j => if j =? i then 1 else 0 | _ => 0 end.
Definition is_write (i : Z) (c : call) : Z :=
  match c with CallWrite j _ => if j =? i then 1 else 0 | _ => 0 end.
Definition is_string (c : call) : Z :=
  match c with CallString => 1 | _ => 0 end.
Definition reads_of (i : Z) (cs : list call) : Z := sumZ (map (is_read i) cs).
Definition writes_of (i : Z) (cs : list call) : Z := sumZ (map (is_write i) cs).
Definition strings_of (cs : list call) : Z := sumZ (map is_string cs).

(** The counters of a store, without its fields. *)
Definition counters (d : LabThreadSafeData) : list Z * list Z * Z * Z :=
  (read_count d, write_count d, string_count d, total_ops d).

(** While a writer holds a mutex it has no readers. *)
Definition writer_alone (st : Locks.state) : Prop :=
  forall i m, vec_get (Locks.mutexes st) i = Some m ->
              Locks.writer m = true -> Locks.readers m = O.

(** Can the action be performed now, or does it have to wait. *)
Definition enabled (a : Locks.action) (st : Locks.state) : Prop :=
  exists ms', Locks.perform a (Locks.mutexes st) = Some ms'.

(** The number of lock and unlock actions of a call on [size] fields. *)
Definition call_actions (size : nat) (c : call) : Z :=
  match c with
  | CallString => 2 * Z.of_nat size
  | _ => 2
  end.

(** The line of the file format that names a call. *)
Definition line_of_call (c : call) : string :=
  match c with
  | CallRead i => "read " ++ show_int i
  | CallWrite i v => "write " ++ show_int i ++ " " ++ show_int v
  | CallString => "string"
  end.

(** A call that a line can name: an index and a value that are [int]s, the
    index not negative. *)
Definition int_call (c : call) : Prop :=
  match c with
  | CallRead i => 0 <= i <= INT_MAX
  | CallWrite i v => 0 <= i <= INT_MAX /\ INT_MIN <= v <= INT_MAX
  | CallString => True
  end.

(** A text that is empty or starts with white space. *)
Definition starts_blank (s : string) : bool :=
  match s with
  | EmptyString => true
  | String c _ => isspace c
  end.

(** A text that does not start with a decimal digit. *)
Definition no_digit_head (s : string) : bool :=
  match s with
  | EmptyString => true
  | String c _ => negb (isdigit c)
  end.

(** The number a sequence of decimal digits denotes after the digits that
    gave [acc]. *)
Fixpoint uint_acc (d : Decimal.uint) (acc : Z) : Z :=
  match d with
  | Decimal.Nil => acc
  | Decimal.D0 l => uint_acc l (10 * acc + 0)
  | Decimal.D1 l => uint_acc l (10 * acc + 1)
  | Decimal.D2 l => uint_acc l (10 * acc + 2)
  | Decimal.D3 l => uint_acc l (10 * acc + 3)
  | Decimal.D4 l => uint_acc l (10 * acc + 4)
  | Decimal.D5 l => uint_acc l (10 * acc + 5)
  | Decimal.D6 l => uint_acc l (10 * acc + 6)
  | Decimal.D7 l => uint_acc l (10 * acc + 7)
  | Decimal.D8 l => uint_acc l (10 * acc + 8)
  | Decimal.D9 l => uint_acc l (10 * acc + 9)
  end.

(** A text without white space. *)
Fixpoint no_blank (s : string) : bool :=
  match s with
  | EmptyString => true
  | String c s' => negb (isspace c) && no_blank s'
  end.

(** The calls that the entries pushed by the seven loops of [generateFile]
    name, for the seven loop lengths. *)
Definition planned_calls (n1 n2 n3 n4 n5 n6 n7 : Z) : list call :=
  replicate (Z.to_nat n1) (CallRead 0)
  ++ replicate (Z.to_nat n2) (CallWrite 0 1)
  ++ replicate (Z.to_nat n3) (CallRead 1)
  ++ replicate (Z.to_nat n4) (CallWrite 1 1)
  ++ replicate (Z.to_nat n5) (CallRead 2)
  ++ replicate (Z.to_nat n6) (CallWrite 2 1)
  ++ replicate (Z.to_nat n7) CallString.

(** A call that writes nothing but 1. *)
Definition writes_one (c : call) : Prop :=
  match c with
  | CallWrite _ v => v = 1
  | _ => True
  end.

(** The percentages [percents_a] of [main]. *)
Definition d10 : double := double_of_Z 10.
Definition d5 : double := double_of_Z 5.
Definition percents_a : OpsPercent := mkPercent d10 d10 d50 d10 d5 d5 d10.

(** The value of the last write to field [i] in [cs], [x] when there is
    none. *)
Fixpoint last_write (i : Z) (cs : list call) (x : Z) : Z :=
  match cs with
  | [] => x
  | CallWrite j v :: cs' => last_write i cs' (if j =? i then v else x)
  | _ :: cs' => last_write i cs' x
  end.

(** [cs] is an interleaving of the call sequences [ws] of several workers:
    at each step one of the workers makes its next call, as a whole. *)
Inductive interleaving : list (list call) -> list call -> Prop :=
| interleaving_done (ws : list (list call)) :
    Forall (fun w => w = []) ws -> interleaving ws []
| interleaving_call (ws : list (list call)) (k : nat) (c : call)
    (rest cs : list call) :
    ws !! k = Some (c :: rest) ->
    interleaving (<[k := rest]> ws) cs ->
    interleaving ws (c :: cs).

(** The entries that the seven [for] loops of [generateFile] push, for the
    seven truncated counts, and how many they are: a loop whose count is
    not positive pushes nothing. *)
Definition loop_entries (c1 c2 c3 c4 c5 c6 c7 : Z) : list string :=
  replicate (Z.to_nat c1) "read 0"%string
  ++ replicate (Z.to_nat c2) "write 0 1"%string
  ++ replicate (Z.to_nat c3) "read 1"%string
  ++ replicate (Z.to_nat c4) "write 1 1"%string
  ++ replicate (Z.to_nat c5) "read 2"%string
  ++ replicate (Z.to_nat c6) "write 2 1"%string
  ++ replicate (Z.to_nat c7) "string"%string.

Definition loop_total (c1 c2 c3 c4 c5 c6 c7 : Z) : Z :=
  Z.max 0 c1 + Z.max 0 c2 + Z.max 0 c3 + Z.max 0 c4 + Z.max 0 c5
  + Z.max 0 c6 + Z.max 0 c7.

(** Percentages of which one is negative: -50, 100, 50 and four times 0. *)
Definition percents_neg : OpsPercent :=
  mkPercent (double_of_Z (-50)) d100 d50 dzero dzero dzero dzero.

(** * Properties *)

Example show_int_ex : map show_int [0; 7; -15; 120] = ["0"; "7"; "-15"; "120"]%string.
Proof. reflexivity. Qed.

Example getlines_ex :
  getlines ("read 0" ++ nl ++ nl ++ "string" ++ nl ++ "write 1 5")%string
  = ["read 0"; EmptyString; "string"; "write 1 5"]%string.
Proof. reflexivity. Qed.

Example extract_ex :
  extract_int (mkStream " -12x" true) = (Some (-12), mkStream "x" true)
  /\ extract_int (mkStream " x" true) = (Some 0, mkStream "x" false)
  /\ extract_int (mkStream "7" true) = (Some 7, mkStream EmptyString false)
  /\ extract_int (mkStream EmptyString false) = (None, mkStream EmptyString false)
  /\ extract_int (mkStream "99999999999 1" true) = (Some INT_MAX, mkStream " 1" false).
Proof. repeat split. Qed.

(** A known token without its argument: the index is read uninitialised. *)
Example exec_missing_argument :
  exec_line (LabThreadSafeData_ctor 3) "read" = None
  /\ exec_line (LabThreadSafeData_ctor 3) "write 1" = None
  /\ exec_line (LabThreadSafeData_ctor 3) "read -1" = None
  /\ exec_line (LabThreadSafeData_ctor 3) "read 3" = None.
Proof. repeat split. Qed.

Example exec_ex :
  executeFile (LabThreadSafeData_ctor 3)
    (Some ("write 0 1" ++ nl ++ "bogus 1 2" ++ nl ++ "read 2" ++ nl ++ "string" ++ nl)%string)
  = Some (mkData [1; 0; 0] [0; 0; 1] [1; 0; 0] 1 3).
Proof. reflexivity. Qed.


(** ** Vectors *)

Lemma in_range_true {A} (v : list A) (i : Z) :
  0 <= i < Z.of_nat (length v) -> in_range v i = true.
Proof.
  intros [H0 H1]. unfold in_range.
  apply andb_true_intro. split; [apply Z.leb_le | apply Z.ltb_lt]; assumption.
Qed.

Lemma in_range_inv {A} (v : list A) (i : Z) :
  in_range v i = true -> 0 <= i < Z.of_nat (length v).
Proof.
  unfold in_range. intros H. apply andb_prop in H as [H0 H1].
  apply Z.leb_le in H0. apply Z.ltb_lt in H1. lia.
Qed.

Lemma vec_get_is_Some {A} (v : list A) (i : Z) :
  0 <= i < Z.of_nat (length v) -> exists x, vec_get v i = Some x.
Proof.
  intros H. unfold vec_get. rewrite in_range_true by assumption.
  destruct (lookup_lt_is_Some_2 v (Z.to_nat i)) as [x Hx]; [lia|].
  exists x. exact Hx.
Qed.

Lemma vec_get_Some_inv {A} (v : list A) (i : Z) (x : A) :
  vec_get v i = Some x ->
  0 <= i < Z.of_nat (length v) /\ v !! Z.to_nat i = Some x.
Proof.
  unfold vec_get. destruct (in_range v i) eqn:E; [|discriminate].
  intros H. split; [apply in_range_inv; exact E | exact H].
Qed.

Lemma vec_set_is_Some {A} (v : list A) (i : Z) (x : A) :
  0 <= i < Z.of_nat (length v) ->
  vec_set v i x = Some (<[Z.to_nat i := x]> v).
Proof. intros H. unfold vec_set. rewrite in_range_true by assumption. reflexivity. Qed.

Lemma vec_set_Some_inv {A} (v v' : list A) (i : Z) (x : A) :
  vec_set v i x = Some v' ->
  0 <= i < Z.of_nat (length v) /\ v' = <[Z.to_nat i := x]> v.
Proof.
  unfold vec_set. destruct (in_range v i) eqn:E; [|discriminate].
  intros H. injection H as <-. split; [apply in_range_inv; exact E | reflexivity].
Qed.

Lemma vec_get_insert_eq {A} (v : list A) (i : Z) (x : A) :
  0 <= i < Z.of_nat (length v) ->
  vec_get (<[Z.to_nat i := x]> v) i = Some x.
Proof.
  intros H. unfold vec_get.
  rewrite in_range_true by (rewrite length_insert; assumption).
  apply list_lookup_insert_eq. lia.
Qed.

Lemma vec_get_insert_ne {A} (v : list A) (i j : Z) (x : A) :
  0 <= i -> i <> j ->
  vec_get (<[Z.to_nat i := x]> v) j = vec_get v j.
Proof.
  intros Hi Hne. unfold vec_get, in_range. rewrite length_insert.
  destruct (0 <=? j) eqn:Hj; [|reflexivity]. apply Z.leb_le in Hj.
  destruct (j <? Z.of_nat (length v)); [|reflexivity]. cbn.
  apply list_lookup_insert_ne. lia.
Qed.

Lemma vec_get_replicate {A} (x : A) (m : nat) (i : Z) :
  0 <= i < Z.of_nat m -> vec_get (replicate m x) i = Some x.
Proof.
  intros H. unfold vec_get.
  rewrite in_range_true by (rewrite length_replicate; assumption).
  apply lookup_replicate_2. lia.
Qed.

(** ** The three methods on a store of known size *)

Lemma readField_eq (m : nat) (d : LabThreadSafeData) (i : Z) :
  has_size m d -> 0 <= i < Z.of_nat m ->
  exists x rc,
    vec_get (fields d) i = Some x /\ vec_get (read_count d) i = Some rc /\
    readField d i =
      Some (x, mkData (fields d) (<[Z.to_nat i := incr rc]> (read_count d))
                 (write_count d) (string_count d) (incr (total_ops d))).
Proof.
  intros (Hf & Hr & Hw) Hi.
  destruct (vec_get_is_Some (fields d) i) as [x Hx]; [lia|].
  destruct (vec_get_is_Some (read_count d) i) as [rc Hrc]; [lia|].
  exists x, rc. repeat split; try assumption.
  unfold readField. rewrite Hrc, vec_set_is_Some by lia. cbn. rewrite Hx.
  reflexivity.
Qed.

Lemma writeField_eq (m : nat) (d : LabThreadSafeData) (i v : Z) :
  has_size m d -> 0 <= i < Z.of_nat m ->
  exists wc,
    vec_get (write_count d) i = Some wc /\
    writeField d i v =
      Some (mkData (<[Z.to_nat i := v]> (fields d)) (read_count d)
              (<[Z.to_nat i := incr wc]> (write_count d))
              (string_count d) (incr (total_ops d))).
Proof.
  intros (Hf & Hr & Hw) Hi.
  destruct (vec_get_is_Some (write_count d) i) as [wc Hwc]; [lia|].
  exists wc. split; [assumption|].
  unfold writeField. rewrite Hwc, !vec_set_is_Some by lia. reflexivity.
Qed.

Lemma ctor_has_size (m : nat) : has_size m (LabThreadSafeData_ctor m).
Proof. unfold has_size; cbn. rewrite !length_replicate. auto. Qed.

Lemma do_call_has_size (m : nat) (c : call) (d : LabThreadSafeData) :
  has_size m d -> valid_call m c ->
  exists d', do_call c d = Some d' /\ has_size m d'.
Proof.
  intros Hd Hc. destruct c as [i | i v |]; cbn in Hc |- *.
  - destruct (readField_eq m d i Hd Hc) as (x & rc & _ & _ & ->).
    eexists; split; [reflexivity|].
    destruct Hd as (Hf & Hr & Hw). unfold has_size; cbn.
    rewrite length_insert. auto.
  - destruct (writeField_eq m d i v Hd Hc) as (wc & _ & ->).
    eexists; split; [reflexivity|].
    destruct Hd as (Hf & Hr & Hw). unfold has_size; cbn.
    rewrite !length_insert. auto.
  - eexists; split; [reflexivity|]. exact Hd.
Qed.

Lemma run_app (cs1 cs2 : list call) (d : LabThreadSafeData) :
  run (cs1 ++ cs2) d = match run cs1 d with Some d1 => run cs2 d1 | None => None end.
Proof.
  revert d. induction cs1 as [|c cs1 IH]; intros d; cbn; [reflexivity|].
  destruct (do_call c d); [apply IH | reflexivity].
Qed.

Lemma run_has_size (m : nat) (cs : list call) (d : LabThreadSafeData) :
  has_size m d -> Forall (valid_call m) cs ->
  exists d', run cs d = Some d' /\ has_size m d'.
Proof.
  intros Hd Hcs. revert d Hd.
  induction Hcs as [|c cs Hc _ IH]; intros d Hd; cbn.
  - eauto.
  - destruct (do_call_has_size m c d Hd Hc) as (d1 & -> & Hd1). auto.
Qed.

(** ** Construction *)

(** C8. A store constructed with [m] fields has [m] fields, [m] read
    counters and [m] write counters, all of them 0, and its string counter
    and its global operation counter are 0. *)
Theorem constructed_store_is_zero (m : nat) :
  has_size m (LabThreadSafeData_ctor m)
  /\ Forall (fun x => x = 0) (fields (LabThreadSafeData_ctor m))
  /\ Forall (fun c => c = 0) (read_count (LabThreadSafeData_ctor m))
  /\ Forall (fun c => c = 0) (write_count (LabThreadSafeData_ctor m))
  /\ string_count (LabThreadSafeData_ctor m) = 0
  /\ total_ops (LabThreadSafeData_ctor m) = 0.
Proof.
  split; [apply ctor_has_size|].
  cbn. repeat split; apply Forall_replicate; reflexivity.
Qed.

(** ** Reads, writes and the fields *)

Lemma do_call_keeps_field (m : nat) (c : call) (d d' : LabThreadSafeData)
    (i v : Z) :
  has_size m d -> valid_call m c -> ~ writes_to i c ->
  do_call c d = Some d' ->
  vec_get (fields d) i = Some v -> vec_get (fields d') i = Some v.
Proof.
  intros Hd Hc Hnw Hrun Hv. destruct c as [j | j w |]; cbn in *.
  - destruct (readField_eq m d j Hd Hc) as (x & rc & _ & _ & E).
    rewrite E in Hrun. injection Hrun as <-. exact Hv.
  - destruct (writeField_eq m d j w Hd Hc) as (wc & _ & E).
    rewrite E in Hrun. injection Hrun as <-. cbn.
    rewrite vec_get_insert_ne; [exact Hv | lia | exact Hnw].
  - injection Hrun as <-. exact Hv.
Qed.

Lemma run_keeps_field (m : nat) (cs : list call) (i v : Z) :
  Forall (valid_call m) cs -> Forall (fun c => ~ writes_to i c) cs ->
  forall d, has_size m d -> vec_get (fields d) i = Some v ->
  exists d', run cs d = Some d' /\ has_size m d'
             /\ vec_get (fields d') i = Some v.
Proof.
  intros Hval. induction Hval as [|c cs Hc _ IH]; intros Hnw d Hd Hv; cbn.
  - eauto.
  - apply Forall_cons in Hnw as [Hnc Hnw].
    destruct (do_call_has_size m c d Hd Hc) as (d1 & E & Hd1). rewrite E.
    apply (IH Hnw d1 Hd1).
    exact (do_call_keeps_field m c d d1 i v Hd Hc Hnc E Hv).
Qed.

(** C2. On a store with [m] fields and for an index [i] in range, a
    [readField(i)] that follows [writeField(i, v)] returns [v], whatever
    calls were made in between, as long as none of them writes field [i]
    (in particular when there is none at all). *)
Theorem read_after_write (m : nat) (d : LabThreadSafeData) (i v : Z)
    (between : list call) :
  has_size m d -> 0 <= i < Z.of_nat m ->
  Forall (valid_call m) between ->
  Forall (fun c => ~ writes_to i c) between ->
  exists d1 d2 d3,
    writeField d i v = Some d1 /\ run between d1 = Some d2
    /\ readField d2 i = Some (v, d3).
Proof.
  intros Hd Hi Hval Hnw.
  destruct (writeField_eq m d i v Hd Hi) as (wc & _ & Ew).
  pose proof (do_call_has_size m (CallWrite i v) d Hd Hi) as (d1 & E1 & Hd1).
  cbn in E1. rewrite Ew in E1. injection E1 as E1.
  assert (Hv : vec_get (fields d1) i = Some v).
  { subst d1. cbn. apply vec_get_insert_eq. destruct Hd as (-> & _). exact Hi. }
  destruct (run_keeps_field m between i v Hval Hnw d1 Hd1 Hv)
    as (d2 & E2 & Hd2 & Hv2).
  destruct (readField_eq m d2 i Hd2 Hi) as (x & rc & Hx & _ & Er).
  rewrite Hv2 in Hx. injection Hx as <-.
  exists d1, d2. eexists. rewrite Ew, E1. repeat split; eassumption.
Qed.

Lemma read_after_write_witness :
  exists d1 d2 d3,
    writeField (LabThreadSafeData_ctor 3) 1 42 = Some d1
    /\ run [CallRead 1; CallWrite 0 7; CallString] d1 = Some d2
    /\ readField d2 1 = Some (42, d3).
Proof.
  apply (read_after_write 3 (LabThreadSafeData_ctor 3) 1 42
           [CallRead 1; CallWrite 0 7; CallString]).
  - repeat split.
  - lia.
  - repeat constructor; cbn; lia.
  - repeat constructor; cbn; lia.
Defined.

(** C9. On a store with [m] fields and for an index [i] in range,
    [writeField(i, v)] sets field [i] to [v] and leaves every other field,
    and the number of fields, as they were; [readField(i)] and the string
    conversion leave all the fields as they were. *)
Theorem fields_frame (m : nat) (d : LabThreadSafeData) (i v : Z) :
  has_size m d -> 0 <= i < Z.of_nat m ->
  (exists d', writeField d i v = Some d'
     /\ vec_get (fields d') i = Some v
     /\ length (fields d') = m
     /\ forall j, j <> i -> vec_get (fields d') j = vec_get (fields d) j)
  /\ (exists x d', readField d i = Some (x, d') /\ fields d' = fields d)
  /\ fields (snd (operator_string d)) = fields d.
Proof.
  intros Hd Hi. split; [|split].
  - destruct (writeField_eq m d i v Hd Hi) as (wc & _ & ->).
    eexists; split; [reflexivity|]. cbn. destruct Hd as (Hf & _).
    split; [apply vec_get_insert_eq; lia|].
    split; [rewrite length_insert; exact Hf|].
    intros j Hj. apply vec_get_insert_ne; [lia | congruence].
  - destruct (readField_eq m d i Hd Hi) as (x & rc & _ & _ & ->).
    eexists _, _; split; reflexivity.
  - reflexivity.
Qed.

Lemma fields_frame_witness :
  (exists d', writeField (LabThreadSafeData_ctor 3) 2 9 = Some d'
     /\ vec_get (fields d') 2 = Some 9
     /\ length (fields d') = 3%nat
     /\ forall j, j <> 2 ->
          vec_get (fields d') j = vec_get (fields (LabThreadSafeData_ctor 3)) j)
  /\ (exists x d', readField (LabThreadSafeData_ctor 3) 2 = Some (x, d')
        /\ fields d' = fields (LabThreadSafeData_ctor 3))
  /\ fields (snd (operator_string (LabThreadSafeData_ctor 3)))
     = fields (LabThreadSafeData_ctor 3).
Proof.
  apply (fields_frame 3 (LabThreadSafeData_ctor 3) 2 9).
  - repeat split.
  - lia.
Defined.

(** ** The string conversion *)

Lemma append_nil_r (s : string) : (s ++ EmptyString)%string = s.
Proof. induction s as [|c s IH]; cbn; [reflexivity | rewrite IH; reflexivity]. Qed.

Lemma append_assoc (s1 s2 s3 : string) :
  ((s1 ++ s2) ++ s3)%string = (s1 ++ (s2 ++ s3))%string.
Proof. induction s1 as [|c s1 IH]; cbn; [reflexivity | rewrite IH; reflexivity]. Qed.

Lemma render_loop_eq (size : Z) (rest : list Z) :
  forall (i : Z) (oss : string),
    0 <= i -> i + Z.of_nat (length rest) = size -> size <= SIZE_MODULUS ->
    render_loop size i rest oss = (oss ++ comma_separated rest)%string.
Proof.
  induction rest as [|x rest IH]; intros i oss Hi Hlen Hsize.
  - cbn. symmetry. apply append_nil_r.
  - cbn [render_loop length] in *.
    assert (Hw : wrap_size_t (size - 1) = size - 1).
    { unfold wrap_size_t. apply Z.mod_small. lia. }
    rewrite Hw. destruct rest as [|y rest].
    + cbn [length] in Hlen. replace (i =? size - 1) with true
        by (symmetry; apply Z.eqb_eq; lia).
      reflexivity.
    + cbn [length] in Hlen. replace (i =? size - 1) with false
        by (symmetry; apply Z.eqb_neq; lia).
      rewrite IH; cycle 1.
      * unfold wrap_size_t. rewrite Z.mod_small by lia. lia.
      * unfold wrap_size_t. rewrite Z.mod_small by lia. cbn [length]. lia.
      * exact Hsize.
      * unfold comma_separated. cbn [map String.concat].
        rewrite !append_assoc. reflexivity.
Qed.

(** C3. After [write 0 1], [write 1 2], [write 2 3] on a store constructed
    with 3 fields, the string conversion returns ["1, 2, 3"]; and on every
    store (of at most [2^64] fields, as a [size_t] counts them) it returns
    the decimal texts of the field values in index order, separated by a
    comma and a space. *)
Theorem snapshot_renders_fields :
  (exists d,
      run [CallWrite 0 1; CallWrite 1 2; CallWrite 2 3]
          (LabThreadSafeData_ctor 3) = Some d
      /\ fst (operator_string d) = "1, 2, 3"%string)
  /\ (forall d : LabThreadSafeData,
        Z.of_nat (length (fields d)) <= SIZE_MODULUS ->
        fst (operator_string d) = comma_separated (fields d)).
Proof.
  split.
  - eexists. split; reflexivity.
  - intros d Hd. unfold operator_string. cbn [fst].
    rewrite render_loop_eq; [reflexivity | lia | lia | exact Hd].
Qed.

Lemma snapshot_renders_fields_witness :
  fst (operator_string (mkData [-4; 0; 15; 7] [0; 0; 0; 0] [1; 0; 1; 1] 0 3))
  = "-4, 0, 15, 7"%string.
Proof.
  rewrite (proj2 snapshot_renders_fields); [reflexivity|].
  cbn. unfold SIZE_MODULUS. lia.
Defined.

(** C10. On a store without fields, such as one constructed with 0 fields,
    the string conversion returns the empty string, and it still increments
    the string counter and the global operation counter, and nothing else. *)
Theorem snapshot_of_empty_store (d : LabThreadSafeData) :
  fields d = [] ->
  fst (operator_string d) = EmptyString
  /\ string_count (snd (operator_string d)) = incr (string_count d)
  /\ total_ops (snd (operator_string d)) = incr (total_ops d)
  /\ read_count (snd (operator_string d)) = read_count d
  /\ write_count (snd (operator_string d)) = write_count d
  /\ fields (snd (operator_string d)) = [].
Proof.
  intros Hf. unfold operator_string. rewrite Hf. repeat split.
Qed.

Lemma snapshot_of_empty_store_witness :
  operator_string (LabThreadSafeData_ctor 0) = (EmptyString, mkData [] [] [] 1 1).
Proof.
  pose proof (snapshot_of_empty_store (LabThreadSafeData_ctor 0) eq_refl)
    as (Hs & Hc & Ht & Hr & Hw & Hf).
  destruct (operator_string (LabThreadSafeData_ctor 0)) as [s d'].
  cbn [fst snd] in *. destruct d'; cbn in *. subst. reflexivity.
Defined.

(** ** The counters *)

Lemma sumZ_insert (l : list Z) (k : nat) (x y : Z) :
  l !! k = Some x -> sumZ (<[k := y]> l) = sumZ l - x + y.
Proof.
  revert k. induction l as [|a l IH]; intros k Hk; [discriminate|].
  destruct k as [|k]; simpl in *.
  - injection Hk as ->. lia.
  - rewrite (IH k Hk). lia.
Qed.

Lemma sumZ_nonneg (l : list Z) : Forall (fun c => 0 <= c) l -> 0 <= sumZ l.
Proof. induction 1; cbn; lia. Qed.

Lemma sumZ_lookup_le (l : list Z) (k : nat) (x : Z) :
  Forall (fun c => 0 <= c) l -> l !! k = Some x -> x <= sumZ l.
Proof.
  intros H. revert k. induction H as [|a l Ha Hl IH]; intros k Hk; [discriminate|].
  pose proof (sumZ_nonneg l Hl).
  destruct k as [|k]; simpl in *.
  - injection Hk as ->. lia.
  - specialize (IH k Hk). lia.
Qed.

Lemma sumZ_replicate_0 (m : nat) : sumZ (replicate m 0) = 0.
Proof. induction m; cbn; lia. Qed.

Lemma incr_nonneg (c : Z) : 0 <= incr c.
Proof. unfold incr, wrap_size_t, SIZE_MODULUS. apply Z.mod_pos_bound. lia. Qed.

Lemma incr_small (c : Z) : 0 <= c -> c + 1 < SIZE_MODULUS -> incr c = c + 1.
Proof. intros. unfold incr, wrap_size_t. apply Z.mod_small. lia. Qed.

Lemma wrap_incr (a : Z) : incr (wrap_size_t a) = wrap_size_t (a + 1).
Proof.
  unfold incr, wrap_size_t, SIZE_MODULUS. apply Zplus_mod_idemp_l.
Qed.

Lemma wrap_bump (a c : Z) : wrap_size_t (a - c + incr c) = wrap_size_t (a + 1).
Proof.
  unfold incr, wrap_size_t, SIZE_MODULUS. rewrite Zplus_mod_idemp_r.
  f_equal. lia.
Qed.

(** Incrementing one counter of a vector of counters. *)
Lemma bump_vector (l : list Z) (i c : Z) :
  Forall (fun c => 0 <= c) l -> vec_get l i = Some c ->
  Forall (fun c => 0 <= c) (<[Z.to_nat i := incr c]> l)
  /\ sumZ (<[Z.to_nat i := incr c]> l) = sumZ l - c + incr c
  /\ 0 <= c <= sumZ l.
Proof.
  intros Hl Hc. apply vec_get_Some_inv in Hc as [_ Hc].
  split; [|split].
  - apply Forall_insert; [exact Hl | apply incr_nonneg].
  - apply sumZ_insert. exact Hc.
  - split; [|eapply sumZ_lookup_le; eassumption].
    rewrite Forall_lookup in Hl. exact (Hl _ _ Hc).
Qed.

(** The invariant of the counters after [k] calls, and what one more call
    does to them. *)
Lemma do_call_counts (m : nat) (c : call) (d : LabThreadSafeData) (k : Z) :
  has_size m d -> valid_call m c ->
  Forall (fun c => 0 <= c) (read_count d) ->
  Forall (fun c => 0 <= c) (write_count d) ->
  0 <= string_count d ->
  wrap_size_t (sum_counts d) = total_ops d ->
  total_ops d = wrap_size_t k ->
  (k < SIZE_MODULUS -> sum_counts d = k) ->
  exists d', do_call c d = Some d' /\ has_size m d' /\ counts_one c d d'
    /\ Forall (fun c => 0 <= c) (read_count d')
    /\ Forall (fun c => 0 <= c) (write_count d')
    /\ 0 <= string_count d'
    /\ wrap_size_t (sum_counts d') = total_ops d'
    /\ total_ops d' = wrap_size_t (k + 1)
    /\ (k + 1 < SIZE_MODULUS -> sum_counts d' = k + 1).
Proof.
  intros Hd Hc Hr Hw Hs Hsum Htot Hex.
  destruct (do_call_has_size m c d Hd Hc) as (d' & E & Hd').
  exists d'. split; [exact E|]. split; [exact Hd'|].
  pose proof (sumZ_nonneg _ Hr) as Hr0. pose proof (sumZ_nonneg _ Hw) as Hw0.
  destruct c as [i | i v |]; cbn in Hc, E.
  - destruct (readField_eq m d i Hd Hc) as (x & rc & _ & Hrc & E').
    rewrite E' in E. injection E as <-. unfold counts_one, sum_counts in *; cbn.
    destruct (bump_vector _ _ _ Hr Hrc) as (Hr' & Hsum' & Hle).
    rewrite Hsum'. repeat split; try assumption.
    + exists rc. auto.
    + rewrite <- Hsum, wrap_incr.
      replace (sumZ (read_count d) - rc + incr rc + sumZ (write_count d)
               + string_count d)
        with (sumZ (read_count d) + sumZ (write_count d) + string_count d
              - rc + incr rc) by lia.
      apply wrap_bump.
    + rewrite Htot. apply wrap_incr.
    + intros Hk. rewrite incr_small by lia. specialize (Hex ltac:(lia)). lia.
  - destruct (writeField_eq m d i v Hd Hc) as (wc & Hwc & E').
    rewrite E' in E. injection E as <-. unfold counts_one, sum_counts in *; cbn.
    destruct (bump_vector _ _ _ Hw Hwc) as (Hw' & Hsum' & Hle).
    rewrite Hsum'. repeat split; try assumption.
    + exists wc. auto.
    + rewrite <- Hsum, wrap_incr.
      replace (sumZ (read_count d) + (sumZ (write_count d) - wc + incr wc)
               + string_count d)
        with (sumZ (read_count d) + sumZ (write_count d) + string_count d
              - wc + incr wc) by lia.
      apply wrap_bump.
    + rewrite Htot. apply wrap_incr.
    + intros Hk. rewrite incr_small by lia. specialize (Hex ltac:(lia)). lia.
  - injection E as <-. unfold counts_one, sum_counts in *; cbn.
    repeat split; try assumption.
    + apply incr_nonneg.
    + rewrite <- Hsum, wrap_incr.
      replace (sumZ (read_count d) + sumZ (write_count d)
               + incr (string_count d))
        with (sumZ (read_count d) + sumZ (write_count d) + string_count d
              - string_count d + incr (string_count d)) by lia.
      apply wrap_bump.
    + rewrite Htot. apply wrap_incr.
    + intros Hk. rewrite incr_small by lia. specialize (Hex ltac:(lia)). lia.
Qed.

Lemma run_counts (m : nat) (cs : list call) :
  Forall (valid_call m) cs ->
  forall (d : LabThreadSafeData) (k : Z),
  has_size m d ->
  Forall (fun c => 0 <= c) (read_count d) ->
  Forall (fun c => 0 <= c) (write_count d) ->
  0 <= string_count d ->
  wrap_size_t (sum_counts d) = total_ops d ->
  total_ops d = wrap_size_t k ->
  (k < SIZE_MODULUS -> sum_counts d = k) ->
  exists d', run cs d = Some d' /\ has_size m d'
    /\ Forall (fun c => 0 <= c) (read_count d')
    /\ Forall (fun c => 0 <= c) (write_count d')
    /\ 0 <= string_count d'
    /\ wrap_size_t (sum_counts d') = total_ops d'
    /\ total_ops d' = wrap_size_t (k + Z.of_nat (length cs))
    /\ (k + Z.of_nat (length cs) < SIZE_MODULUS ->
        sum_counts d' = k + Z.of_nat (length cs)).
Proof.
  induction 1 as [|c cs Hc _ IH]; intros d k Hd Hr Hw Hs Hsum Htot Hex.
  - exists d. cbn [run length]. rewrite Z.add_0_r. auto 10.
  - destruct (do_call_counts m c d k Hd Hc Hr Hw Hs Hsum Htot Hex)
      as (d1 & E & Hd1 & _ & Hr1 & Hw1 & Hs1 & Hsum1 & Htot1 & Hex1).
    cbn [run]. rewrite E.
    destruct (IH d1 (k + 1) Hd1 Hr1 Hw1 Hs1 Hsum1 Htot1 Hex1) as (d' & H').
    exists d'.
    replace (k + Z.of_nat (length (c :: cs)))
      with (k + 1 + Z.of_nat (length cs)) by (cbn [length]; lia).
    exact H'.
Qed.

(** C1. After any sequence of valid calls on a constructed store, the sum of
    the read counters, the write counters and the string counter, taken in
    [size_t] arithmetic, is the global operation counter; as integers the
    two are equal, and equal to the number of calls, as long as fewer than
    [2^64] calls were made; and every further call increments the global
    counter and exactly one counter of its own kind, and leaves the other
    counters as they are. *)
Theorem counters_add_up (m : nat) (calls : list call) :
  Forall (valid_call m) calls ->
  exists d,
    run calls (LabThreadSafeData_ctor m) = Some d
    /\ wrap_size_t (sum_counts d) = total_ops d
    /\ (Z.of_nat (length calls) < SIZE_MODULUS ->
        sum_counts d = total_ops d
        /\ total_ops d = Z.of_nat (length calls))
    /\ (forall c, valid_call m c ->
        exists d', do_call c d = Some d' /\ counts_one c d d').
Proof.
  intros Hcs.
  destruct (run_counts m calls Hcs (LabThreadSafeData_ctor m) 0)
    as (d & E & Hd & Hr & Hw & Hs & Hsum & Htot & Hex).
  - apply ctor_has_size.
  - apply Forall_replicate. lia.
  - apply Forall_replicate. lia.
  - cbn. lia.
  - unfold sum_counts. cbn. rewrite !sumZ_replicate_0. reflexivity.
  - reflexivity.
  - intros _. unfold sum_counts. cbn. rewrite !sumZ_replicate_0. reflexivity.
  - rewrite Z.add_0_l in Htot, Hex.
    exists d. split; [exact E|]. split; [exact Hsum|]. split.
    + intros Hk. specialize (Hex Hk). split; [|].
      * rewrite <- Hsum, Hex. unfold wrap_size_t. symmetry.
        apply Z.mod_small. lia.
      * rewrite Htot. unfold wrap_size_t. apply Z.mod_small. lia.
    + intros c Hc.
      destruct (do_call_counts m c d (Z.of_nat (length calls))
                  Hd Hc Hr Hw Hs Hsum Htot Hex) as (d' & E' & _ & Hone & _).
      exists d'. auto.
Qed.

Lemma counters_add_up_witness :
  exists d,
    run [CallRead 0; CallWrite 2 5; CallString; CallRead 0; CallWrite 1 1]
        (LabThreadSafeData_ctor 3) = Some d
    /\ wrap_size_t (sum_counts d) = total_ops d
    /\ (5 < SIZE_MODULUS -> sum_counts d = total_ops d /\ total_ops d = 5)
    /\ (forall c, valid_call 3 c ->
        exists d', do_call c d = Some d' /\ counts_one c d d').
Proof.
  apply (counters_add_up 3
           [CallRead 0; CallWrite 2 5; CallString; CallRead 0; CallWrite 1 1]).
  repeat constructor; cbn; lia.
Defined.

(** ** Statistics *)

Lemma reported_app (o1 o2 : list out_item) :
  reported (o1 ++ o2) = reported o1 ++ reported o2.
Proof.
  induction o1 as [|[s | n | x] o1 IH]; cbn; [reflexivity | exact IH | exact IH |].
  rewrite IH. reflexivity.
Qed.

(** The divisor of the percentages is never 0. *)
Lemma stats_divisor_nonzero (d : LabThreadSafeData) : stats_divisor d <> 0.
Proof.
  unfold stats_divisor. destruct (total_ops d =? 0) eqn:E; [lia|].
  apply Z.eqb_neq in E. exact E.
Qed.

Lemma percentage_0_1 : percentage 0 1 = dzero.
Proof. reflexivity. Qed.

Lemma stats_loop_fresh (m : nat) (n : nat) :
  forall (i : Z) (out : list out_item),
    0 <= i -> i + Z.of_nat n <= Z.of_nat m -> Z.of_nat m < SIZE_MODULUS ->
    exists out',
      stats_loop (LabThreadSafeData_ctor m) 1 i n out = Some (out ++ out')
      /\ reported out' = replicate (2 * n) dzero.
Proof.
  induction n as [|n IH]; intros i out Hi Hin Hm.
  - exists []. cbn. rewrite app_nil_r. auto.
  - cbn [stats_loop LabThreadSafeData_ctor read_count write_count].
    rewrite !vec_get_replicate by lia. rewrite percentage_0_1.
    assert (Hw : wrap_size_t (i + 1) = i + 1).
    { unfold wrap_size_t. apply Z.mod_small. lia. }
    rewrite Hw.
    edestruct (IH (i + 1)) as (out' & E & Hrep); [lia | lia | exact Hm |].
    change (LabThreadSafeData_ctor m)
      with (mkData (replicate m 0) (replicate m 0) (replicate m 0) 0 0) in E.
    rewrite E. eexists. rewrite <- app_assoc. split; [reflexivity|].
    rewrite reported_app, Hrep. cbn [reported app].
    replace (2 * S n)%nat with (S (S (2 * n))) by lia. reflexivity.
Qed.

(** C7. On a store on which no operation has run (constructed with [m]
    fields, [m] a [size_t]), [printStats] divides by 1, not by the global
    counter 0, and every percentage it prints (a read and a write percentage
    per field, then the string percentage) is 0. *)
Theorem stats_of_fresh_store (m : nat) :
  Z.of_nat m < SIZE_MODULUS ->
  total_ops (LabThreadSafeData_ctor m) = 0
  /\ stats_divisor (LabThreadSafeData_ctor m) = 1
  /\ exists out,
       printStats (LabThreadSafeData_ctor m) = Some out
       /\ reported out = replicate (2 * m + 1) dzero.
Proof.
  intros Hm. split; [reflexivity|]. split; [reflexivity|].
  unfold printStats.
  change (stats_divisor (LabThreadSafeData_ctor m)) with 1.
  change (length (fields (LabThreadSafeData_ctor m)))
    with (length (replicate m 0)).
  rewrite length_replicate.
  edestruct (stats_loop_fresh m m 0) as (out' & E & Hrep); [lia | lia | exact Hm |].
  rewrite E. eexists. split; [reflexivity|].
  rewrite !reported_app, Hrep. cbn [reported app string_count LabThreadSafeData_ctor].
  rewrite percentage_0_1.
  rewrite replicate_add. reflexivity.
Qed.

Lemma stats_of_fresh_store_witness :
  total_ops (LabThreadSafeData_ctor 3) = 0
  /\ stats_divisor (LabThreadSafeData_ctor 3) = 1
  /\ exists out,
       printStats (LabThreadSafeData_ctor 3) = Some out
       /\ reported out = replicate 7 dzero.
Proof.
  apply (stats_of_fresh_store 3). unfold SIZE_MODULUS. lia.
Defined.

Example printStats_fresh_2 :
  printStats (LabThreadSafeData_ctor 2)
  = Some [OutText ("Field stats (Read%, Write%):" ++ nl);
          OutText "Field "; OutSize 0; OutText ": "; OutDouble dzero;
          OutText "% / "; OutDouble dzero; OutText ("%" ++ nl);
          OutText "Field "; OutSize 1; OutText ": "; OutDouble dzero;
          OutText "% / "; OutDouble dzero; OutText ("%" ++ nl);
          OutText "String requests: "; OutDouble dzero; OutText ("%" ++ nl)].
Proof. reflexivity. Qed.

(** ** The replay loop *)

Lemma writeField_total_ops (d d' : LabThreadSafeData) (i v : Z) :
  writeField d i v = Some d' -> total_ops d' = incr (total_ops d).
Proof.
  unfold writeField.
  destruct (vec_get (write_count d) i); [|discriminate].
  destruct (vec_set (write_count d) i _); [|discriminate].
  destruct (vec_set (fields d) i v); [|discriminate].
  intros H. injection H as <-. reflexivity.
Qed.

Lemma readField_total_ops (d d' : LabThreadSafeData) (i x : Z) :
  readField d i = Some (x, d') -> total_ops d' = incr (total_ops d).
Proof.
  unfold readField.
  destruct (vec_get (read_count d) i); [|discriminate].
  destruct (vec_set (read_count d) i _); [|discriminate].
  cbn [fields]. destruct (vec_get (fields d) i); [|discriminate].
  intros H. injection H as _ <-. reflexivity.
Qed.

Lemma exec_lines_app (ls1 ls2 : list string) (d : LabThreadSafeData) :
  exec_lines d (ls1 ++ ls2)
  = match exec_lines d ls1 with
    | Some d1 => exec_lines d1 ls2
    | None => None
    end.
Proof.
  revert d. induction ls1 as [|l ls1 IH]; intros d; cbn; [reflexivity|].
  destruct (exec_line d l); [apply IH | reflexivity].
Qed.

Lemma exec_line_unrecognised (d : LabThreadSafeData) (line : string) :
  recognised (leading_token line) = false -> exec_line d line = Some d.
Proof.
  unfold recognised, leading_token, exec_line.
  destruct (extract_string (mkStream line true) EmptyString) as [cmd iss1].
  cbn [fst]. intros H.
  apply orb_false_elim in H as [H Hs]. apply orb_false_elim in H as [Hw Hr].
  rewrite Hw, Hr, Hs. reflexivity.
Qed.

Lemma exec_line_recognised (d d' : LabThreadSafeData) (line : string) :
  recognised (leading_token line) = true ->
  exec_line d line = Some d' -> total_ops d' = incr (total_ops d).
Proof.
  unfold recognised, leading_token, exec_line.
  destruct (extract_string (mkStream line true) EmptyString) as [cmd iss1].
  cbn [fst]. intros H.
  destruct (cmd =? "write")%string.
  - destruct (extract_int iss1) as [idx iss2].
    destruct (extract_int iss2) as [val iss3].
    destruct idx as [idx|]; [|discriminate].
    destruct val as [val|]; [|discriminate].
    apply writeField_total_ops.
  - destruct (cmd =? "read")%string.
    + destruct (extract_int iss1) as [idx iss2].
      destruct idx as [idx|]; [|discriminate].
      destruct (readField d (size_t_of_int idx)) as [[x d1]|] eqn:E; [|discriminate].
      intros H'. injection H' as <-. exact (readField_total_ops _ _ _ _ E).
    + destruct (cmd =? "string")%string; [|discriminate].
      intros H'. injection H' as <-. reflexivity.
Qed.

(** Reading back what [write_lines] wrote. *)
Lemma getlines_write_line (op rest : string) :
  has_newline op = false ->
  getlines (op ++ nl ++ rest) = op :: getlines rest.
Proof.
  induction op as [|c op IH]; intros H.
  - reflexivity.
  - cbn in H. apply orb_false_elim in H as [Hc Hop].
    cbn [append getlines]. rewrite Hc.
    change (op ++ String newline rest)%string with (op ++ nl ++ rest)%string.
    rewrite (IH Hop). reflexivity.
Qed.

Lemma getlines_write_lines (ops : list string) :
  Forall (fun op => has_newline op = false) ops ->
  getlines (write_lines ops) = ops.
Proof.
  induction 1 as [|op ops Hop _ IH]; cbn [write_lines]; [reflexivity|].
  rewrite getlines_write_line by exact Hop. rewrite IH. reflexivity.
Qed.

(** [getlines] is the iteration of [getline]. *)
Lemma until_newline_getlines (s : string) :
  s <> EmptyString ->
  getlines s = fst (until_newline s) :: getlines (snd (until_newline s)).
Proof.
  induction s as [|c s IH]; intros Hs; [congruence|].
  cbn [getlines until_newline].
  destruct (Ascii.eqb c newline); [reflexivity|].
  destruct s as [|c' s'].
  - reflexivity.
  - rewrite IH by discriminate.
    destruct (until_newline (String c' s')) as [l r]. reflexivity.
Qed.

Lemma getlines_getline (s : string) :
  getlines s = match getline s with
               | None => []
               | Some (l, rest) => l :: getlines rest
               end.
Proof.
  destruct s as [|c s]; [reflexivity|].
  rewrite until_newline_getlines by discriminate.
  unfold getline. destruct (until_newline (String c s)). reflexivity.
Qed.

Lemma exec_line_performs (d d' : LabThreadSafeData) (line : string) :
  recognised (leading_token line) = true ->
  exec_line d line = Some d' ->
  (leading_token line = "write"%string
   /\ exists idx val iss2 iss3,
        extract_int (after_token line) = (Some idx, iss2)
        /\ extract_int iss2 = (Some val, iss3)
        /\ writeField d (size_t_of_int idx) val = Some d')
  \/ (leading_token line = "read"%string
      /\ exists idx iss2 x,
           extract_int (after_token line) = (Some idx, iss2)
           /\ readField d (size_t_of_int idx) = Some (x, d'))
  \/ (leading_token line = "string"%string
      /\ d' = snd (operator_string d)).
Proof.
  unfold recognised, leading_token, after_token, exec_line.
  destruct (extract_string (mkStream line true) EmptyString) as [cmd iss1].
  cbn [fst snd]. intros H.
  destruct (cmd =? "write")%string eqn:Ew.
  - apply String.eqb_eq in Ew.
    destruct (extract_int iss1) as [idx iss2].
    destruct (extract_int iss2) as [val iss3] eqn:E2.
    destruct idx as [idx|]; [|discriminate].
    destruct val as [val|]; [|discriminate].
    intros Hw. left. split; [exact Ew|]. exists idx, val, iss2, iss3. auto.
  - destruct (cmd =? "read")%string eqn:Er.
    + apply String.eqb_eq in Er.
      destruct (extract_int iss1) as [idx iss2].
      destruct idx as [idx|]; [|discriminate].
      destruct (readField d (size_t_of_int idx)) as [[x d1]|] eqn:E; [|discriminate].
      intros H'. injection H' as <-. right. left. split; [exact Er|].
      exists idx, iss2, x. auto.
    + destruct (cmd =? "string")%string eqn:Es; [|discriminate].
      apply String.eqb_eq in Es.
      intros H'. injection H' as <-. right. right. auto.
Qed.

(** C4, as the code has it. A line whose leading token is not [read],
    [write] or [string] is skipped: it leaves the store as it is, and a file
    replays to the same store with or without it. A line whose leading
    token is one of the three is never skipped: whenever its execution is
    defined, the store operation that the token names is performed, on the
    arguments that [iss >> idx] and [iss >> val] store, whatever the text of
    these arguments is: [writeField(idx, val)] for [write], [readField(idx)]
    for [read], the string conversion for [string]; and the global
    operation counter is incremented. *)
Theorem line_skipped_iff_unrecognised (data : LabThreadSafeData) (line : string) :
  (recognised (leading_token line) = false ->
     exec_line data line = Some data
     /\ forall (d0 : LabThreadSafeData) (before after : list string),
          exec_lines d0 (before ++ line :: after)
          = exec_lines d0 (before ++ after))
  /\ (recognised (leading_token line) = true ->
      forall d', exec_line data line = Some d' ->
        total_ops d' = incr (total_ops data)
        /\ ((leading_token line = "write"%string
             /\ exists idx val iss2 iss3,
                  extract_int (after_token line) = (Some idx, iss2)
                  /\ extract_int iss2 = (Some val, iss3)
                  /\ writeField data (size_t_of_int idx) val = Some d')
            \/ (leading_token line = "read"%string
                /\ exists idx iss2 x,
                     extract_int (after_token line) = (Some idx, iss2)
                     /\ readField data (size_t_of_int idx) = Some (x, d'))
            \/ (leading_token line = "string"%string
                /\ d' = snd (operator_string data)))).
Proof.
  split.
  - intros H. split; [apply exec_line_unrecognised; exact H|].
    intros d0 before after. rewrite !exec_lines_app.
    destruct (exec_lines d0 before) as [d1|]; [|reflexivity].
    cbn [exec_lines]. rewrite exec_line_unrecognised by exact H. reflexivity.
  - intros H d' Hd'. split.
    + exact (exec_line_recognised data d' line H Hd').
    + exact (exec_line_performs data d' line H Hd').
Qed.

Lemma line_skipped_iff_unrecognised_witness :
  exec_line (LabThreadSafeData_ctor 3) "  bogus 1 2" = Some (LabThreadSafeData_ctor 3)
  /\ (forall d', exec_line (LabThreadSafeData_ctor 3) "write 1 x" = Some d' ->
        total_ops d' = incr (total_ops (LabThreadSafeData_ctor 3))
        /\ ((leading_token "write 1 x" = "write"%string
             /\ exists idx val iss2 iss3,
                  extract_int (after_token "write 1 x") = (Some idx, iss2)
                  /\ extract_int iss2 = (Some val, iss3)
                  /\ writeField (LabThreadSafeData_ctor 3) (size_t_of_int idx) val
                     = Some d')
            \/ (leading_token "write 1 x" = "read"%string
                /\ exists idx iss2 x,
                     extract_int (after_token "write 1 x") = (Some idx, iss2)
                     /\ readField (LabThreadSafeData_ctor 3) (size_t_of_int idx)
                        = Some (x, d'))
            \/ (leading_token "write 1 x" = "string"%string
                /\ d' = snd (operator_string (LabThreadSafeData_ctor 3))))).
Proof.
  split.
  - apply (proj1 (line_skipped_iff_unrecognised (LabThreadSafeData_ctor 3)
                    "  bogus 1 2")). reflexivity.
  - apply (proj2 (line_skipped_iff_unrecognised (LabThreadSafeData_ctor 3)
                    "write 1 x")). reflexivity.
Defined.

(** The arguments of the two malformed lines of the counterexample, as the
    extractors store them. *)
Example malformed_arguments :
  extract_int (after_token "read x") = (Some 0, mkStream "x" false)
  /\ extract_int (after_token "write 1 x") = (Some 1, mkStream " x" true)
  /\ extract_int (mkStream " x" true) = (Some 0, mkStream "x" false).
Proof. repeat split. Qed.

(** C4, as stated, fails: a line with a known leading token and a malformed
    argument is not skipped. ["read x"] is replayed as [readField(0)] and
    increments a read counter and the global counter; ["write 1 x"] is
    replayed as [writeField(1, 0)] and overwrites field 1. *)
Lemma malformed_line_not_skipped :
  executeFile (LabThreadSafeData_ctor 3) (Some "read x"%string)
    = Some (mkData [0; 0; 0] [1; 0; 0] [0; 0; 0] 0 1)
  /\ executeFile (LabThreadSafeData_ctor 3) (Some "read x"%string)
    <> Some (LabThreadSafeData_ctor 3)
  /\ executeFile (mkData [0; 5; 0] [0; 0; 0] [0; 1; 0] 0 1) (Some "write 1 x"%string)
    = Some (mkData [0; 0; 0] [0; 0; 0] [0; 2; 0] 0 2).
Proof. split; [reflexivity | split; [discriminate | reflexivity]]. Qed.

(** ** The workload generator *)

Lemma int_of_size_t_small (z : Z) : 0 <= z <= INT_MAX -> int_of_size_t z = z.
Proof.
  unfold int_of_size_t, INT_MAX. intros H.
  rewrite Z.mod_small by lia.
  destruct (z <=? 2147483647) eqn:E; [reflexivity|].
  apply Z.leb_gt in E. lia.
Qed.

Lemma pad_loop_pads (fuel : nat) :
  forall (ops : list string) (num_ops : Z),
    Z.of_nat (length ops) <= INT_MAX -> num_ops <= INT_MAX ->
    (Z.to_nat (num_ops - Z.of_nat (length ops)) < fuel)%nat ->
    pad_loop fuel ops num_ops
    = Some (ops ++ replicate (Z.to_nat (num_ops - Z.of_nat (length ops)))
                             "string"%string).
Proof.
  induction fuel as [|fuel IH]; intros ops num_ops Hlen Hn Hfuel; [lia|].
  cbn [pad_loop]. rewrite int_of_size_t_small by lia.
  destruct (Z.of_nat (length ops) <? num_ops) eqn:E.
  - apply Z.ltb_lt in E. rewrite IH; cycle 1.
    + rewrite length_app. cbn [length]. lia.
    + exact Hn.
    + rewrite length_app. cbn [length]. lia.
    + rewrite length_app. cbn [length]. rewrite <- app_assoc. do 2 f_equal.
      replace (Z.to_nat (num_ops - Z.of_nat (length ops)))
        with (S (Z.to_nat (num_ops - Z.of_nat (length ops + 1)))) by lia.
      reflexivity.
  - apply Z.ltb_ge in E.
    replace (Z.to_nat (num_ops - Z.of_nat (length ops))) with O by lia.
    cbn. rewrite app_nil_r. reflexivity.
Qed.

Lemma push_back_n_Forall (P : string -> Prop) (ops : list string) (n : Z)
    (op : string) :
  Forall P ops -> P op -> Forall P (push_back_n ops n op).
Proof.
  intros Hops Hop. unfold push_back_n. apply Forall_app. split; [exact Hops|].
  apply Forall_replicate. exact Hop.
Qed.

Lemma kind_ops_no_newline (num_ops : Z) (percents : OpsPercent)
    (ks : list string) :
  kind_ops num_ops percents = Some ks ->
  Forall (fun op => has_newline op = false) ks.
Proof.
  unfold kind_ops.
  repeat match goal with
         | |- context [op_count ?n ?p] =>
             destruct (op_count n p); [|discriminate]
         end.
  intros H. injection H as <-.
  repeat (apply push_back_n_Forall; [|reflexivity]). constructor.
Qed.

Lemma generate_from_kind_ops (shuffle : list string -> list string)
    (fuel : nat) (num_ops : Z) (percents : OpsPercent) (ks : list string) :
  (forall l, Permutation l (shuffle l)) ->
  kind_ops num_ops percents = Some ks ->
  Z.of_nat (length ks) <= INT_MAX -> num_ops <= INT_MAX ->
  (Z.to_nat (num_ops - Z.of_nat (length ks)) < fuel)%nat ->
  exists content,
    generateFile shuffle fuel num_ops percents = Some content
    /\ Z.of_nat (length (getlines content))
       = Z.max num_ops (Z.of_nat (length ks))
    /\ Permutation
         (ks ++ replicate (Z.to_nat (num_ops - Z.of_nat (length ks)))
                          "string"%string)
         (getlines content).
Proof.
  intros Hshuffle Hks Hlen Hn Hfuel.
  unfold generateFile, generate_ops. rewrite Hks.
  rewrite pad_loop_pads by assumption.
  eexists. split; [reflexivity|].
  set (ops := ks ++ replicate _ _).
  assert (Hnl : Forall (fun op => has_newline op = false) (shuffle ops)).
  { apply (Permutation_Forall (Hshuffle ops)). subst ops.
    apply Forall_app. split; [eapply kind_ops_no_newline; eassumption|].
    apply Forall_replicate. reflexivity. }
  rewrite getlines_write_lines by exact Hnl.
  rewrite <- (Permutation_length (Hshuffle ops)). subst ops.
  rewrite length_app, length_replicate.
  split; [lia | apply Hshuffle].
Qed.

Lemma kind_ops_entries (num_ops : Z) (percents : OpsPercent)
    (c1 c2 c3 c4 c5 c6 c7 : Z) :
  op_count num_ops (read1 percents) = Some c1 ->
  op_count num_ops (write1 percents) = Some c2 ->
  op_count num_ops (read2 percents) = Some c3 ->
  op_count num_ops (write2 percents) = Some c4 ->
  op_count num_ops (read3 percents) = Some c5 ->
  op_count num_ops (write3 percents) = Some c6 ->
  op_count num_ops (string_op percents) = Some c7 ->
  kind_ops num_ops percents = Some (loop_entries c1 c2 c3 c4 c5 c6 c7).
Proof.
  intros H1 H2 H3 H4 H5 H6 H7. unfold kind_ops.
  rewrite H1, H2, H3, H4, H5, H6, H7. unfold push_back_n, loop_entries.
  rewrite <- !app_assoc. reflexivity.
Qed.

Lemma loop_entries_length (c1 c2 c3 c4 c5 c6 c7 : Z) :
  Z.of_nat (length (loop_entries c1 c2 c3 c4 c5 c6 c7))
  = loop_total c1 c2 c3 c4 c5 c6 c7.
Proof.
  unfold loop_entries, loop_total. rewrite !length_app, !length_replicate. lia.
Qed.

(** C5, as the code has it. Let the seven truncated counts be defined, and
    let the total be the sum of those that are positive (the lengths of the
    seven [for] loops; a count that is not positive adds nothing), for a
    [num_ops] that is an [int]. When the total is at most [num_ops], the
    generator writes exactly [num_ops] lines: the entries of the seven loops
    and one ["string"] per entry missing from [num_ops], in some order.
    When the total is more than [num_ops] (and at most [INT_MAX], so that
    the cast of [ops.size()] is exact), nothing is removed: it writes the
    entries of the seven loops, in some order, and no padding. With
    [num_ops = 100] and seven percentages of 14.29 it writes 100 lines, 14
    of each kind and two more ["string"]. *)
Theorem generated_length (shuffle : list string -> list string) :
  (forall l, Permutation l (shuffle l)) ->
  (forall (fuel : nat) (num_ops : Z) (percents : OpsPercent)
          (c1 c2 c3 c4 c5 c6 c7 : Z),
      op_count num_ops (read1 percents) = Some c1 ->
      op_count num_ops (write1 percents) = Some c2 ->
      op_count num_ops (read2 percents) = Some c3 ->
      op_count num_ops (write2 percents) = Some c4 ->
      op_count num_ops (read3 percents) = Some c5 ->
      op_count num_ops (write3 percents) = Some c6 ->
      op_count num_ops (string_op percents) = Some c7 ->
      num_ops <= INT_MAX ->
      (Z.to_nat (num_ops - loop_total c1 c2 c3 c4 c5 c6 c7) < fuel)%nat ->
      (loop_total c1 c2 c3 c4 c5 c6 c7 <= num_ops ->
       exists content,
         generateFile shuffle fuel num_ops percents = Some content
         /\ Z.of_nat (length (getlines content)) = num_ops
         /\ Permutation
              (loop_entries c1 c2 c3 c4 c5 c6 c7
               ++ replicate
                    (Z.to_nat (num_ops - loop_total c1 c2 c3 c4 c5 c6 c7))
                    "string"%string)
              (getlines content))
      /\ (num_ops < loop_total c1 c2 c3 c4 c5 c6 c7 <= INT_MAX ->
          exists content,
            generateFile shuffle fuel num_ops percents = Some content
            /\ Z.of_nat (length (getlines content))
               = loop_total c1 c2 c3 c4 c5 c6 c7
            /\ Permutation (loop_entries c1 c2 c3 c4 c5 c6 c7)
                           (getlines content)))
  /\ (forall fuel : nat, (2 < fuel)%nat ->
      exists content,
        generateFile shuffle fuel 100 percents_b = Some content
        /\ length (getlines content) = 100%nat
        /\ Permutation
             (replicate 14 "read 0"%string ++ replicate 14 "write 0 1"%string
              ++ replicate 14 "read 1"%string ++ replicate 14 "write 1 1"%string
              ++ replicate 14 "read 2"%string ++ replicate 14 "write 2 1"%string
              ++ replicate 16 "string"%string)
             (getlines content)).
Proof.
  intros Hshuffle. split.
  - intros fuel num_ops percents c1 c2 c3 c4 c5 c6 c7
      H1 H2 H3 H4 H5 H6 H7 Hn Hfuel.
    pose proof (kind_ops_entries _ _ _ _ _ _ _ _ _ H1 H2 H3 H4 H5 H6 H7) as Hks.
    pose proof (loop_entries_length c1 c2 c3 c4 c5 c6 c7) as Hlen.
    split.
    + intros Hle.
      destruct (generate_from_kind_ops shuffle fuel num_ops percents _
                  Hshuffle Hks) as (content & E & Hl & Hp); try lia.
      exists content. rewrite Hlen in Hl, Hp.
      split; [exact E|]. split; [lia | exact Hp].
    + intros [Hlt Hmax].
      destruct (generate_from_kind_ops shuffle fuel num_ops percents _
                  Hshuffle Hks) as (content & E & Hl & Hp); try lia.
      exists content. rewrite Hlen in Hl, Hp.
      split; [exact E|]. split; [lia|].
      replace (Z.to_nat (num_ops - loop_total c1 c2 c3 c4 c5 c6 c7))
        with O in Hp by lia.
      cbn [replicate] in Hp. rewrite app_nil_r in Hp. exact Hp.
  - intros fuel Hfuel.
    destruct (generate_from_kind_ops shuffle fuel 100 percents_b
                (loop_entries 14 14 14 14 14 14 14) Hshuffle)
      as (content & E & Hlen & Hperm).
    + vm_compute. reflexivity.
    + vm_compute. discriminate.
    + vm_compute. discriminate.
    + vm_compute in Hfuel |- *. lia.
    + exists content. split; [exact E|]. split; [|exact Hperm].
      apply Nat2Z.inj. rewrite Hlen. vm_compute. reflexivity.
Qed.

Lemma generated_length_witness :
  (exists content,
      generateFile (@rev string) 4 10 percents_b = Some content
      /\ Z.of_nat (length (getlines content)) = 10
      /\ Permutation
           (["read 0"; "write 0 1"; "read 1"; "write 1 1"; "read 2";
             "write 2 1"; "string"; "string"; "string"; "string"]%string)
           (getlines content))
  /\ (exists content,
        generateFile (@rev string) 1 100 percents_neg = Some content
        /\ Z.of_nat (length (getlines content)) = 150
        /\ Permutation
             (replicate 100 "write 0 1"%string ++ replicate 50 "read 1"%string)
             (getlines content))
  /\ (exists content,
        generateFile (@rev string) 3 100 percents_b = Some content
        /\ length (getlines content) = 100%nat
        /\ Permutation
             (replicate 14 "read 0"%string ++ replicate 14 "write 0 1"%string
              ++ replicate 14 "read 1"%string ++ replicate 14 "write 1 1"%string
              ++ replicate 14 "read 2"%string ++ replicate 14 "write 2 1"%string
              ++ replicate 16 "string"%string)
             (getlines content)).
Proof.
  split; [|split].
  - apply (proj1 (proj1 (generated_length (@rev string) (@Permutation_rev string))
                   4%nat 10 percents_b 1 1 1 1 1 1 1
                   ltac:(vm_compute; reflexivity) ltac:(vm_compute; reflexivity)
                   ltac:(vm_compute; reflexivity) ltac:(vm_compute; reflexivity)
                   ltac:(vm_compute; reflexivity) ltac:(vm_compute; reflexivity)
                   ltac:(vm_compute; reflexivity)
                   ltac:(vm_compute; discriminate) ltac:(vm_compute; lia))).
    vm_compute. discriminate.
  - apply (proj2 (proj1 (generated_length (@rev string) (@Permutation_rev string))
                   1%nat 100 percents_neg (-50) 100 50 0 0 0 0
                   ltac:(vm_compute; reflexivity) ltac:(vm_compute; reflexivity)
                   ltac:(vm_compute; reflexivity) ltac:(vm_compute; reflexivity)
                   ltac:(vm_compute; reflexivity) ltac:(vm_compute; reflexivity)
                   ltac:(vm_compute; reflexivity)
                   ltac:(vm_compute; discriminate) ltac:(vm_compute; lia))).
    vm_compute. split; [reflexivity | discriminate].
  - apply (proj2 (generated_length (@rev string) (@Permutation_rev string)) 3%nat).
    lia.
Defined.

(** C5, as stated, fails: when the seven truncated counts sum to more than
    [num_ops], the loops alone push more than [num_ops] entries and nothing
    removes them. With [num_ops = 100] and seven percentages of 50 the file
    has 350 lines; with the arguments of the second call in [main],
    [num_ops = 100000] and seven percentages of 14.29, it has 100030. *)
Lemma generated_length_overshoot :
  option_map (fun content => length (getlines content))
             (generateFile (@rev string) 5 100 percents_50)
  = Some 350%nat
  /\ option_map (fun content => Z.of_nat (length (getlines content)))
                (generateFile (fun ops => ops) 5 100000 percents_b)
     = Some 100030.
Proof. split; vm_compute; reflexivity. Qed.

(** ** The locks *)

Section SumOfMap.
Context {A : Type} (f : A -> Z).

Lemma sumZ_map_insert (l : list A) (k : nat) (p q : A) :
  l !! k = Some p ->
  sumZ (map f (<[k := q]> l)) = sumZ (map f l) - f p + f q.
Proof.
  revert k. induction l as [|x l IH]; intros k Hk; [discriminate|].
  destruct k as [|k]; simpl in *.
  - injection Hk as ->. lia.
  - rewrite (IH k Hk). lia.
Qed.

Lemma sumZ_map_zero (l : list A) :
  Forall (fun p => f p = 0) l -> sumZ (map f l) = 0.
Proof. induction 1 as [|x l Hx _ IH]; cbn; lia. Qed.

Hypothesis f_nonneg : forall x, 0 <= f x.

Lemma sumZ_map_nonneg (l : list A) : 0 <= sumZ (map f l).
Proof. induction l as [|x l IH]; cbn; [lia|]. specialize (f_nonneg x). lia. Qed.

Lemma sumZ_map_ge (l : list A) (k : nat) (p : A) :
  l !! k = Some p -> f p <= sumZ (map f l).
Proof.
  revert k. induction l as [|x l IH]; intros k Hk; [discriminate|].
  pose proof (sumZ_map_nonneg l). pose proof (f_nonneg x).
  destruct k as [|k]; simpl in *.
  - injection Hk as ->. lia.
  - specialize (IH k Hk). lia.
Qed.

Lemma sumZ_map_pos (l : list A) :
  0 < sumZ (map f l) -> exists k p, l !! k = Some p /\ 0 < f p.
Proof.
  induction l as [|x l IH]; cbn; [lia|]. intros H.
  destruct (Z_lt_le_dec 0 (f x)) as [Hx | Hx].
  - exists O, x. split; [reflexivity | exact Hx].
  - destruct IH as (k & p & Hk & Hp); [lia|].
    exists (S k), p. split; assumption.
Qed.
End SumOfMap.

Lemma holds_shared_range (i : Z) (p : list Locks.action) :
  0 <= Locks.holds_shared i p <= 1.
Proof.
  destruct p as [|[j | j | j | j] p]; cbn; try lia.
  destruct (j =? i); lia.
Qed.

Lemma holds_excl_range (i : Z) (p : list Locks.action) :
  0 <= Locks.holds_excl i p <= 1.
Proof.
  destruct p as [|[j | j | j | j] p]; cbn; try lia.
  destruct (j =? i); lia.
Qed.

Lemma paired_holds_nothing (i : Z) (p : list Locks.action) :
  Locks.paired p -> Locks.holds_shared i p = 0 /\ Locks.holds_excl i p = 0.
Proof. destruct 1; split; reflexivity. Qed.

Lemma paired_app (p q : list Locks.action) :
  Locks.paired p -> Locks.paired q -> Locks.paired (p ++ q).
Proof.
  induction 1 as [|i p _ IH | i p _ IH]; intros Hq; cbn.
  - exact Hq.
  - constructor. apply IH. exact Hq.
  - constructor. apply IH. exact Hq.
Qed.

Lemma actions_string_paired (n : nat) (i : Z) :
  Locks.paired (Locks.actions_string i n).
Proof.
  revert i. induction n as [|n IH]; intros i; cbn; constructor. apply IH.
Qed.

Lemma program_paired (size : nat) (cs : list call) :
  Locks.paired (Locks.program size cs).
Proof.
  induction cs as [|c cs IH]; cbn; [constructor|].
  apply paired_app; [|exact IH].
  destruct c; cbn.
  - repeat constructor.
  - repeat constructor.
  - apply actions_string_paired.
Qed.

Lemma actions_string_indices (size : nat) (n : nat) (i : Z) :
  0 <= i -> i + Z.of_nat n <= Z.of_nat size ->
  Forall (fun a => 0 <= Locks.action_index a < Z.of_nat size)
         (Locks.actions_string i n).
Proof.
  revert i. induction n as [|n IH]; intros i Hi Hn; cbn [Locks.actions_string].
  - constructor.
  - constructor; [cbn; lia|]. constructor; [cbn; lia|]. apply IH; lia.
Qed.

Lemma program_indices (size : nat) (cs : list call) :
  Forall (valid_call size) cs ->
  Forall (fun a => 0 <= Locks.action_index a < Z.of_nat size)
         (Locks.program size cs).
Proof.
  induction 1 as [|c cs Hc _ IH]; cbn [Locks.program]; [constructor|].
  apply Forall_app. split; [|exact IH].
  destruct c as [i | i v |]; cbn in Hc |- *.
  - repeat constructor; cbn; lia.
  - repeat constructor; cbn; lia.
  - apply actions_string_indices; lia.
Qed.

(** The string conversion locks the mutexes in increasing index order. *)
Lemma actions_string_order (n : nat) (i : Z) :
  Locks.lock_order (Locks.actions_string i n) = seqZ i (Z.of_nat n).
Proof.
  revert i. induction n as [|n IH]; intros i.
  - reflexivity.
  - cbn [Locks.actions_string Locks.lock_order]. rewrite IH.
    rewrite (seqZ_cons i (Z.of_nat (S n))) by lia.
    do 2 f_equal; lia.
Qed.

Lemma init_consistent (size : nat) (workers : list (list call)) :
  Forall (Forall (valid_call size)) workers ->
  Locks.consistent size (Locks.init size workers).
Proof.
  intros Hw. unfold Locks.consistent, Locks.init; cbn.
  split; [apply length_replicate|].
  split; [apply Forall_map; apply Forall_forall; intros cs _; left;
          apply program_paired|].
  split.
  - apply Forall_map. eapply Forall_impl; [exact Hw|].
    intros cs Hcs. apply program_indices. exact Hcs.
  - intros i m Hm. apply vec_get_Some_inv in Hm as [_ Hm].
    apply lookup_replicate in Hm as [-> _]. cbn.
    rewrite !sumZ_map_zero; [split; reflexivity | |];
      apply Forall_map; apply Forall_forall; intros cs _;
      apply paired_holds_nothing, program_paired.
Qed.

Lemma thread_ok_tail (a : Locks.action) (rest : list Locks.action) :
  Locks.thread_ok (a :: rest) -> Locks.thread_ok rest.
Proof.
  intros [Hp | (i & p' & Hp' & [E | E])].
  - inversion Hp; subst; right; eauto.
  - injection E as -> ->. left. exact Hp'.
  - injection E as -> ->. left. exact Hp'.
Qed.

(** What a worker holds before and after its next action [a]. *)
Lemma thread_ok_head (a : Locks.action) (rest : list Locks.action) (j : Z) :
  Locks.thread_ok (a :: rest) ->
  match a with
  | Locks.LockShared i =>
      Locks.holds_shared j (a :: rest) = 0 /\ Locks.holds_excl j (a :: rest) = 0
      /\ Locks.holds_shared j rest = (if i =? j then 1 else 0)
      /\ Locks.holds_excl j rest = 0
  | Locks.LockExcl i =>
      Locks.holds_shared j (a :: rest) = 0 /\ Locks.holds_excl j (a :: rest) = 0
      /\ Locks.holds_shared j rest = 0
      /\ Locks.holds_excl j rest = (if i =? j then 1 else 0)
  | Locks.UnlockShared i =>
      Locks.holds_shared j (a :: rest) = (if i =? j then 1 else 0)
      /\ Locks.holds_excl j (a :: rest) = 0
      /\ Locks.holds_shared j rest = 0 /\ Locks.holds_excl j rest = 0
  | Locks.UnlockExcl i =>
      Locks.holds_shared j (a :: rest) = 0
      /\ Locks.holds_excl j (a :: rest) = (if i =? j then 1 else 0)
      /\ Locks.holds_shared j rest = 0 /\ Locks.holds_excl j rest = 0
  end.
Proof.
  intros [Hp | (i & p' & Hp' & [E | E])].
  - inversion Hp; subst; cbn; auto.
  - injection E as -> ->.
    destruct (paired_holds_nothing j p' Hp') as [-> ->]. cbn. auto.
  - injection E as -> ->.
    destruct (paired_holds_nothing j p' Hp') as [-> ->]. cbn. auto.
Qed.

Lemma perform_inv (a : Locks.action) (ms ms' : list Locks.shared_mutex) :
  Locks.perform a ms = Some ms' ->
  exists m m',
    vec_get ms (Locks.action_index a) = Some m
    /\ ms' = <[Z.to_nat (Locks.action_index a) := m']> ms
    /\ match a with
       | Locks.LockShared _ =>
           Locks.writer m = false
           /\ m' = Locks.mkMutex (S (Locks.readers m)) false
       | Locks.UnlockShared _ =>
           m' = Locks.mkMutex (Nat.pred (Locks.readers m)) (Locks.writer m)
       | Locks.LockExcl _ =>
           Locks.writer m = false /\ Locks.readers m = O
           /\ m' = Locks.mkMutex O true
       | Locks.UnlockExcl _ =>
           m' = Locks.mkMutex (Locks.readers m) false
       end.
Proof.
  destruct a as [i | i | i | i]; cbn [Locks.perform Locks.action_index];
    destruct (vec_get ms i) as [m|] eqn:Hm; try discriminate.
  - destruct (Locks.writer m) eqn:Hw; [discriminate|]. intros H.
    apply vec_set_Some_inv in H as [_ ->]. eauto 10.
  - intros H. apply vec_set_Some_inv in H as [_ ->]. eauto 10.
  - destruct (Locks.writer m) eqn:Hw; [discriminate|].
    destruct (Nat.eqb (Locks.readers m) 0) eqn:Hr; [|discriminate]. cbn.
    intros H. apply vec_set_Some_inv in H as [_ ->].
    apply Nat.eqb_eq in Hr. eauto 10.
  - intros H. apply vec_set_Some_inv in H as [_ ->]. eauto 10.
Qed.

Lemma step_consistent (size : nat) (st st' : Locks.state) :
  Locks.consistent size st -> Locks.step st st' -> Locks.consistent size st'.
Proof.
  intros (Hlen & Hok & Hidx & Hmx) Hstep.
  destruct Hstep as [st k a rest ms' Hk Hperf]. cbn [Locks.mutexes Locks.threads].
  apply perform_inv in Hperf as (m & m' & Hm & -> & Ha).
  pose proof (proj1 (Forall_lookup _ _) Hok k _ Hk) as Hthr.
  pose proof (proj1 (Forall_lookup _ _) Hidx k _ Hk) as Hthri.
  apply Forall_cons in Hthri as [Hai Hresti].
  unfold Locks.consistent. cbn [Locks.mutexes Locks.threads].
  split; [rewrite length_insert; exact Hlen|].
  split; [apply Forall_insert; [exact Hok | eapply thread_ok_tail; exact Hthr]|].
  split; [apply Forall_insert; [exact Hidx | exact Hresti]|].
  intros j mj Hj.
  rewrite !(sumZ_map_insert _ _ k (a :: rest) rest Hk).
  pose proof (thread_ok_head a rest j Hthr) as Hhead.
  pose proof (sumZ_map_ge (Locks.holds_shared j)
                (fun p => proj1 (holds_shared_range j p)) _ k _ Hk) as Hges.
  pose proof (sumZ_map_ge (Locks.holds_excl j)
                (fun p => proj1 (holds_excl_range j p)) _ k _ Hk) as Hgee.
  destruct (Z.eq_dec (Locks.action_index a) j) as [Heq | Hne].
  - subst j. apply vec_get_Some_inv in Hm as Hm'. destruct Hm' as [Hr _].
    rewrite vec_get_insert_eq in Hj by exact Hr. injection Hj as <-.
    destruct (Hmx _ _ Hm) as [Hs He].
    destruct a as [i | i | i | i]; cbn [Locks.action_index] in *;
      rewrite Z.eqb_refl in Hhead;
      destruct Hhead as (H1 & H2 & H3 & H4); rewrite H1, H2, H3, H4 in *.
    + destruct Ha as [Hw ->]. rewrite Hw in He. cbn in *. lia.
    + subst m'. cbn [Locks.readers Locks.writer]. lia.
    + destruct Ha as (Hw & Hr0 & ->). rewrite Hw in He. rewrite Hr0 in Hs.
      cbn in *. lia.
    + subst m'. cbn [Locks.readers Locks.writer].
      destruct (Locks.writer m); cbn in *; lia.
  - rewrite vec_get_insert_ne in Hj by lia.
    destruct (Hmx _ _ Hj) as [Hs He].
    destruct a as [i | i | i | i]; cbn [Locks.action_index] in *;
      (replace (i =? j) with false in Hhead
         by (symmetry; apply Z.eqb_neq; exact Hne));
      destruct Hhead as (H1 & H2 & H3 & H4); rewrite H1, H2, H3, H4; lia.
Qed.

Lemma reachable_consistent (size : nat) (st st' : Locks.state) :
  Locks.consistent size st -> rtc Locks.step st st' ->
  Locks.consistent size st'.
Proof.
  intros H Hrtc. induction Hrtc as [|st st1 st2 Hstep _ IH]; [exact H|].
  apply IH. eapply step_consistent; eassumption.
Qed.

Lemma finished_or_pending (ts : list (list Locks.action)) :
  Forall (fun p => p = []) ts
  \/ exists k a rest, ts !! k = Some (a :: rest).
Proof.
  induction ts as [|p ts IH].
  - left. constructor.
  - destruct p as [|a rest].
    + destruct IH as [IH | (k & a & rest & Hk)].
      * left. constructor; [reflexivity | exact IH].
      * right. exists (S k), a, rest. exact Hk.
    + right. exists O, a, rest. reflexivity.
Qed.

(** A worker that holds a mutex can always release it. *)
Lemma unlock_enabled (size : nat) (st : Locks.state) (k : nat)
    (a : Locks.action) (rest : list Locks.action) :
  Locks.consistent size st ->
  Locks.threads st !! k = Some (a :: rest) ->
  (exists i, a = Locks.UnlockShared i \/ a = Locks.UnlockExcl i) ->
  exists st', Locks.step st st'.
Proof.
  intros (Hlen & _ & Hidx & _) Hk (i & Ha).
  pose proof (proj1 (Forall_lookup _ _) Hidx k _ Hk) as Hthri.
  apply Forall_cons in Hthri as [Hai _].
  destruct (vec_get_is_Some (Locks.mutexes st) (Locks.action_index a))
    as [m Hm]; [lia|].
  assert (Hin : 0 <= i < Z.of_nat (length (Locks.mutexes st)))
    by (destruct Ha; subst a; cbn in Hai; lia).
  destruct Ha; subst a; cbn [Locks.action_index] in Hm;
    eexists; eapply (Locks.step_worker st k _ rest); try exact Hk;
    cbn [Locks.perform]; rewrite Hm; apply vec_set_is_Some; exact Hin.
Qed.

(** Global progress: unless every worker has finished, some worker can
    perform its next action. *)
Lemma consistent_progress (size : nat) (st : Locks.state) :
  Locks.consistent size st ->
  Locks.finished st \/ exists st', Locks.step st st'.
Proof.
  intros Hc. destruct (finished_or_pending (Locks.threads st))
    as [Hfin | (k & a & rest & Hk)]; [left; exact Hfin | right].
  pose proof Hc as (Hlen & Hok & Hidx & Hmx).
  pose proof (proj1 (Forall_lookup _ _) Hidx k _ Hk) as Hthri.
  apply Forall_cons in Hthri as [Hai _].
  destruct (vec_get_is_Some (Locks.mutexes st) (Locks.action_index a))
    as [m Hm]; [lia|].
  destruct (Hmx _ _ Hm) as [Hs He].
  assert (Hin : 0 <= Locks.action_index a
                < Z.of_nat (length (Locks.mutexes st))) by lia.
  assert (Writer : Locks.writer m = true -> exists st', Locks.step st st').
  { intros Hw. rewrite Hw in He. cbn in He.
    destruct (sumZ_map_pos (Locks.holds_excl (Locks.action_index a))
                (Locks.threads st)) as (k' & p' & Hk' & Hp'); [lia|].
    destruct p' as [|[j | j | j | j] p']; cbn in Hp'; try lia.
    eapply unlock_enabled; [exact Hc | exact Hk' | eauto]. }
  assert (Readers : Locks.readers m <> O -> exists st', Locks.step st st').
  { intros Hr.
    destruct (sumZ_map_pos (Locks.holds_shared (Locks.action_index a))
                (Locks.threads st)) as (k' & p' & Hk' & Hp'); [lia|].
    destruct p' as [|[j | j | j | j] p']; cbn in Hp'; try lia.
    eapply unlock_enabled; [exact Hc | exact Hk' | eauto]. }
  destruct a as [i | i | i | i]; cbn [Locks.action_index] in *.
  - destruct (Locks.writer m) eqn:Hw; [apply Writer; reflexivity|].
    eexists. eapply (Locks.step_worker st k _ rest); [exact Hk|].
    cbn [Locks.perform]. rewrite Hm, Hw. apply vec_set_is_Some. exact Hin.
  - eapply unlock_enabled; [exact Hc | exact Hk | eauto].
  - destruct (Locks.writer m) eqn:Hw; [apply Writer; reflexivity|].
    destruct (Locks.readers m) as [|r] eqn:Hr; [|apply Readers; discriminate].
    eexists. eapply (Locks.step_worker st k _ rest); [exact Hk|].
    cbn [Locks.perform]. rewrite Hm, Hw, Hr. cbn. apply vec_set_is_Some.
    exact Hin.
  - eapply unlock_enabled; [exact Hc | exact Hk | eauto].
Qed.

Lemma step_remaining (st st' : Locks.state) :
  Locks.step st st' -> Locks.remaining st' = Locks.remaining st - 1.
Proof.
  destruct 1 as [st k a rest ms' Hk _]. unfold Locks.remaining.
  cbn [Locks.threads]. rewrite (sumZ_map_insert _ _ k (a :: rest) rest Hk).
  cbn [length]. lia.
Qed.

(** C6. Workers that replay any sequences of valid calls on one store never
    deadlock: in every state they can reach, either every worker has
    finished or some worker can perform its next locking action; each
    action performed leaves one action less to perform, so every run ends,
    and it can only end with every worker finished. The string conversion
    locks the mutexes of the fields in increasing index order. *)
Theorem snapshot_never_deadlocks (size : nat) (workers : list (list call))
    (st : Locks.state) :
  Forall (Forall (valid_call size)) workers ->
  rtc Locks.step (Locks.init size workers) st ->
  (Locks.finished st \/ exists st', Locks.step st st')
  /\ 0 <= Locks.remaining st
  /\ (forall st', Locks.step st st' ->
                  Locks.remaining st' = Locks.remaining st - 1)
  /\ Locks.lock_order (Locks.actions_of_call size CallString)
     = seqZ 0 (Z.of_nat size).
Proof.
  intros Hw Hreach.
  pose proof (reachable_consistent size _ _ (init_consistent size workers Hw)
                Hreach) as Hc.
  split; [apply (consistent_progress size); exact Hc|].
  split; [apply sumZ_map_nonneg; intros p; lia|].
  split; [intros st'; apply step_remaining|].
  apply actions_string_order.
Qed.

Lemma snapshot_never_deadlocks_witness :
  (Locks.finished
     (Locks.mkState
        [Locks.mkMutex 1 false; Locks.unlocked]
        [[Locks.UnlockShared 0; Locks.LockShared 1; Locks.UnlockShared 1;
          Locks.LockExcl 0; Locks.UnlockExcl 0];
         [Locks.LockShared 1; Locks.UnlockShared 1; Locks.LockShared 0;
          Locks.UnlockShared 0; Locks.LockShared 1; Locks.UnlockShared 1]])
   \/ exists st',
       Locks.step
         (Locks.mkState
            [Locks.mkMutex 1 false; Locks.unlocked]
            [[Locks.UnlockShared 0; Locks.LockShared 1; Locks.UnlockShared 1;
              Locks.LockExcl 0; Locks.UnlockExcl 0];
             [Locks.LockShared 1; Locks.UnlockShared 1; Locks.LockShared 0;
              Locks.UnlockShared 0; Locks.LockShared 1; Locks.UnlockShared 1]])
         st')
  /\ Locks.lock_order (Locks.actions_of_call 2 CallString) = [0; 1].
Proof.
  pose proof (snapshot_never_deadlocks 2
                [[CallString; CallWrite 0 1]; [CallRead 1; CallString]]
                (Locks.mkState
                   [Locks.mkMutex 1 false; Locks.unlocked]
                   [[Locks.UnlockShared 0; Locks.LockShared 1;
                     Locks.UnlockShared 1; Locks.LockExcl 0; Locks.UnlockExcl 0];
                    [Locks.LockShared 1; Locks.UnlockShared 1;
                     Locks.LockShared 0; Locks.UnlockShared 0;
                     Locks.LockShared 1; Locks.UnlockShared 1]]))
    as H.
  destruct H as (Hprog & _ & _ & Hord).
  - repeat constructor; cbn; lia.
  - apply rtc_once.
    exact (Locks.step_worker
             (Locks.init 2 [[CallString; CallWrite 0 1]; [CallRead 1; CallString]])
             0 (Locks.LockShared 0)
             [Locks.UnlockShared 0; Locks.LockShared 1; Locks.UnlockShared 1;
              Locks.LockExcl 0; Locks.UnlockExcl 0]
             [Locks.mkMutex 1 false; Locks.unlocked]
             eq_refl eq_refl).
  - split; [exact Hprog | exact Hord].
Defined.

(** * Further properties of the code *)

(** ** Files: what [generateFile] writes and [executeFile] reads *)

(** X1. A file written one entry per line, as [generateFile] writes it, is
    read back by the [getline] loop of [executeFile] as the same entries in
    the same order, provided no entry contains a newline; replaying the file
    is then replaying the entries one after the other. *)
Theorem written_file_replays (data : LabThreadSafeData) (ops : list string) :
  Forall (fun op => has_newline op = false) ops ->
  getlines (write_lines ops) = ops
  /\ executeFile data (Some (write_lines ops)) = exec_lines data ops.
Proof.
  intros H. pose proof (getlines_write_lines ops H) as E.
  split; [exact E|]. unfold executeFile. rewrite E. reflexivity.
Qed.

Lemma written_file_replays_witness :
  getlines (write_lines ["write 0 1"; "string"; "read 2"]%string)
  = ["write 0 1"; "string"; "read 2"]%string
  /\ executeFile (LabThreadSafeData_ctor 3)
       (Some (write_lines ["write 0 1"; "string"; "read 2"]%string))
     = exec_lines (LabThreadSafeData_ctor 3)
         ["write 0 1"; "string"; "read 2"]%string.
Proof.
  apply (written_file_replays (LabThreadSafeData_ctor 3)
           ["write 0 1"; "string"; "read 2"]%string).
  repeat constructor.
Defined.

Lemma getlines_final_newline (s : string) :
  s <> EmptyString -> ends_with_newline s = false ->
  getlines (s ++ nl) = getlines s.
Proof.
  induction s as [|c s IH]; intros Hne Hend; [congruence|].
  cbn [append getlines]. destruct s as [|c' s'].
  - cbn in Hend. rewrite Hend. reflexivity.
  - rewrite IH; [reflexivity | discriminate | exact Hend].
Qed.

(** X2. The newline after the last line of a file is optional: a file whose
    last line is not terminated replays exactly as the same file with the
    terminating newline added. *)
Theorem final_newline_optional (data : LabThreadSafeData) (content : string) :
  content <> EmptyString -> ends_with_newline content = false ->
  executeFile data (Some (content ++ nl)%string)
  = executeFile data (Some content).
Proof.
  intros Hne Hend. unfold executeFile.
  rewrite getlines_final_newline by assumption. reflexivity.
Qed.

Lemma final_newline_optional_witness :
  executeFile (LabThreadSafeData_ctor 3)
    (Some (("write 1 4" ++ nl ++ "read 1") ++ nl)%string)
  = executeFile (LabThreadSafeData_ctor 3)
      (Some ("write 1 4" ++ nl ++ "read 1")%string).
Proof.
  apply (final_newline_optional (LabThreadSafeData_ctor 3)
           ("write 1 4" ++ nl ++ "read 1")%string).
  - discriminate.
  - reflexivity.
Defined.

Lemma skipws_blank_prefix (ws s : string) :
  all_blank ws = true -> skipws (ws ++ s) = skipws s.
Proof.
  induction ws as [|c ws IH]; intros H; [reflexivity|].
  cbn in H. apply andb_prop in H as [Hc Hws].
  cbn [append skipws]. rewrite Hc. apply IH. exact Hws.
Qed.

(** X3. White space in front of a line is ignored: the line replays as it
    does without it. In particular a line of white space only (an empty
    line, or the carriage return left by a file with CR LF line ends) is
    skipped. *)
Theorem leading_blanks_ignored (data : LabThreadSafeData) (ws line : string) :
  all_blank ws = true ->
  exec_line data (ws ++ line) = exec_line data line
  /\ exec_line data ws = Some data.
Proof.
  intros H.
  assert (E : forall l, extract_string (mkStream (ws ++ l) true) EmptyString
                        = extract_string (mkStream l true) EmptyString).
  { intros l. unfold extract_string, sentry. cbn [good buf].
    rewrite skipws_blank_prefix by exact H. reflexivity. }
  split.
  - unfold exec_line. rewrite E. reflexivity.
  - rewrite <- (append_nil_r ws). unfold exec_line. rewrite E. reflexivity.
Qed.

Lemma leading_blanks_ignored_witness :
  exec_line (LabThreadSafeData_ctor 3) ("   " ++ "write 2 8")
  = exec_line (LabThreadSafeData_ctor 3) "write 2 8"
  /\ exec_line (LabThreadSafeData_ctor 3) "   " = Some (LabThreadSafeData_ctor 3).
Proof.
  apply (leading_blanks_ignored (LabThreadSafeData_ctor 3) "   " "write 2 8").
  reflexivity.
Defined.

(** ** The store: calls in closed form *)

Lemma insert_incr_bump (l : list Z) (i c : Z) :
  l !! Z.to_nat i = Some c -> <[Z.to_nat i := incr c]> l = bump l i.
Proof.
  intros H. unfold bump. rewrite list_insert_alter.
  apply list_alter_ext; [|reflexivity].
  intros y Hy. rewrite H in Hy. injection Hy as <-. reflexivity.
Qed.

Lemma do_call_effect (m : nat) (c : call) (d : LabThreadSafeData) :
  has_size m d -> valid_call m c -> do_call c d = Some (effect c d).
Proof.
  intros Hd Hc. destruct c as [i | i v |]; cbn in Hc |- *.
  - destruct (readField_eq m d i Hd Hc) as (x & rc & _ & Hrc & ->).
    apply vec_get_Some_inv in Hrc as [_ Hrc].
    cbn. rewrite (insert_incr_bump _ _ _ Hrc). reflexivity.
  - destruct (writeField_eq m d i v Hd Hc) as (wc & Hwc & ->).
    apply vec_get_Some_inv in Hwc as [_ Hwc].
    rewrite (insert_incr_bump _ _ _ Hwc). reflexivity.
  - reflexivity.
Qed.

Lemma effect_has_size (m : nat) (c : call) (d : LabThreadSafeData) :
  has_size m d -> has_size m (effect c d).
Proof.
  intros (Hf & Hr & Hw). unfold has_size.
  destruct c; cbn [effect fields read_count write_count]; unfold bump;
    rewrite ?length_alter, ?length_insert; repeat split; assumption.
Qed.

Lemma run_effects (m : nat) (cs : list call) :
  forall d, has_size m d -> Forall (valid_call m) cs ->
            run cs d = Some (effects cs d) /\ has_size m (effects cs d).
Proof.
  induction cs as [|c cs IH]; intros d Hd Hcs.
  - split; [reflexivity | exact Hd].
  - apply Forall_cons in Hcs as [Hc Hcs]. cbn [run].
    rewrite (do_call_effect m c d Hd Hc).
    apply (IH (effect c d) (effect_has_size m c d Hd) Hcs).
Qed.

Lemma do_call_Some_valid (m : nat) (c : call) (d d' : LabThreadSafeData) :
  has_size m d -> do_call c d = Some d' -> valid_call m c.
Proof.
  intros (Hf & Hr & Hw) H. destruct c as [i | i v |]; cbn in *; [| |exact I].
  - unfold readField in H.
    destruct (vec_get (read_count d) i) as [rc|] eqn:E; [|discriminate].
    apply vec_get_Some_inv in E as [E _]. lia.
  - unfold writeField in H.
    destruct (vec_get (write_count d) i) as [wc|] eqn:E; [|discriminate].
    apply vec_get_Some_inv in E as [E _]. lia.
Qed.

(** X4. On a store with [m] fields a sequence of calls is defined exactly
    when every index in it is in range; one index out of range makes the
    whole sequence undefined. A defined sequence leaves the number of fields
    and of counters as it was. *)
Theorem run_defined_iff (m : nat) (cs : list call) (d : LabThreadSafeData) :
  has_size m d ->
  ((exists d', run cs d = Some d') <-> Forall (valid_call m) cs)
  /\ (forall d', run cs d = Some d' -> has_size m d').
Proof.
  revert d. induction cs as [|c cs IH]; intros d Hd.
  - split; [split; [constructor | eauto]|].
    cbn. intros d' H. injection H as <-. exact Hd.
  - cbn [run]. destruct (do_call c d) as [d1|] eqn:E.
    + pose proof (do_call_Some_valid m c d d1 Hd E) as Hc.
      rewrite (do_call_effect m c d Hd Hc) in E. injection E as <-.
      destruct (IH (effect c d) (effect_has_size m c d Hd)) as [Hiff Hsz].
      split; [|exact Hsz]. rewrite Hiff. split.
      * intros H. constructor; assumption.
      * intros H. apply Forall_cons in H as [_ H]. exact H.
    + split; [|discriminate]. split.
      * intros [d' H]. discriminate.
      * intros H. apply Forall_cons in H as [Hc _].
        rewrite (do_call_effect m c d Hd Hc) in E. discriminate.
Qed.

Lemma run_defined_iff_witness :
  ((exists d', run [CallWrite 2 5; CallRead 3] (LabThreadSafeData_ctor 3) = Some d')
   <-> Forall (valid_call 3) [CallWrite 2 5; CallRead 3])
  /\ (forall d', run [CallWrite 2 5; CallRead 3] (LabThreadSafeData_ctor 3) = Some d'
                 -> has_size 3 d').
Proof.
  apply (run_defined_iff 3 [CallWrite 2 5; CallRead 3] (LabThreadSafeData_ctor 3)).
  repeat split.
Defined.

Lemma bump_commute (l : list Z) (i j : Z) :
  bump (bump l i) j = bump (bump l j) i.
Proof.
  unfold bump. apply list_eq. intros k. rewrite !list_lookup_alter.
  repeat case_decide; subst; rewrite ?list_lookup_alter_eq,
    ?list_lookup_alter_ne by assumption; try reflexivity; congruence.
Qed.

(** X5. Two calls in range can be made in either order with the same
    resulting store (fields and all counters), unless both are writes to
    the same field. *)
Theorem calls_commute (m : nat) (d : LabThreadSafeData) (c1 c2 : call) :
  has_size m d -> valid_call m c1 -> valid_call m c2 -> ~ conflict c1 c2 ->
  run [c1; c2] d = run [c2; c1] d
  /\ exists d', run [c1; c2] d = Some d'.
Proof.
  intros Hd H1 H2 Hnc.
  destruct (run_effects m [c1; c2] d Hd) as [E12 _]; [repeat constructor; assumption|].
  destruct (run_effects m [c2; c1] d Hd) as [E21 _]; [repeat constructor; assumption|].
  rewrite E12, E21. split; [|eauto]. f_equal. unfold effects. cbn [fold_left].
  destruct c1 as [i | i v |], c2 as [j | j w |]; cbn in *;
    try reflexivity; try (f_equal; apply bump_commute).
  f_equal; [|apply bump_commute].
  apply list_insert_insert_ne. intros E. apply Hnc. lia.
Qed.

Lemma calls_commute_witness :
  run [CallWrite 0 7; CallWrite 2 9] (LabThreadSafeData_ctor 3)
  = run [CallWrite 2 9; CallWrite 0 7] (LabThreadSafeData_ctor 3)
  /\ exists d', run [CallWrite 0 7; CallWrite 2 9] (LabThreadSafeData_ctor 3) = Some d'.
Proof.
  apply (calls_commute 3 (LabThreadSafeData_ctor 3) (CallWrite 0 7) (CallWrite 2 9)).
  - repeat split.
  - cbn. lia.
  - cbn. lia.
  - cbn. lia.
Defined.

(** ** The counters, call by call *)

Lemma effect_counters_ext (c : call) (d1 d2 : LabThreadSafeData) :
  counters d1 = counters d2 -> counters (effect c d1) = counters (effect c d2).
Proof.
  unfold counters. intros H. injection H as Hr Hw Hs Ht.
  destruct c; cbn; rewrite Hr, Hw, Hs, Ht; reflexivity.
Qed.

Lemma effects_counters_ext (cs : list call) :
  forall d1 d2, counters d1 = counters d2 ->
                counters (effects cs d1) = counters (effects cs d2).
Proof.
  induction cs as [|c cs IH]; intros d1 d2 H; [exact H|].
  apply (IH (effect c d1) (effect c d2)). apply effect_counters_ext. exact H.
Qed.

Lemma effect_counters_swap (c1 c2 : call) (d : LabThreadSafeData) :
  counters (effect c1 (effect c2 d)) = counters (effect c2 (effect c1 d)).
Proof.
  unfold counters.
  destruct c1, c2; cbn; try reflexivity; rewrite bump_commute; reflexivity.
Qed.

Lemma effects_counters_perm (cs cs' : list call) :
  Permutation cs cs' ->
  forall d1 d2, counters d1 = counters d2 ->
                counters (effects cs d1) = counters (effects cs' d2).
Proof.
  induction 1 as [|c cs cs' _ IH | c1 c2 cs | cs1 cs2 cs3 _ IH1 _ IH2];
    intros d1 d2 H.
  - exact H.
  - apply (IH (effect c d1) (effect c d2)). apply effect_counters_ext. exact H.
  - unfold effects. cbn [fold_left]. apply effects_counters_ext.
    rewrite effect_counters_swap.
    apply effect_counters_ext, effect_counters_ext. exact H.
  - rewrite (IH1 d1 d1 eq_refl). apply IH2. exact H.
Qed.

(** X6. The counters a sequence of calls leaves do not depend on the order
    of the calls: two sequences with the same calls in different orders,
    from the same store, end with equal read counters, write counters,
    string counter and global counter. *)
Theorem counters_order_independent (m : nat) (d : LabThreadSafeData)
    (cs cs' : list call) :
  has_size m d -> Forall (valid_call m) cs -> Permutation cs cs' ->
  exists d1 d2,
    run cs d = Some d1 /\ run cs' d = Some d2 /\ counters d1 = counters d2.
Proof.
  intros Hd Hcs Hperm.
  pose proof (Permutation_Forall Hperm Hcs) as Hcs'.
  destruct (run_effects m cs d Hd Hcs) as [E _].
  destruct (run_effects m cs' d Hd Hcs') as [E' _].
  exists (effects cs d), (effects cs' d).
  split; [exact E|]. split; [exact E'|].
  apply effects_counters_perm; [exact Hperm | reflexivity].
Qed.

Lemma counters_order_independent_witness :
  exists d1 d2,
    run [CallWrite 0 2; CallWrite 0 1; CallString]
        (LabThreadSafeData_ctor 2) = Some d1
    /\ run [CallWrite 0 1; CallWrite 0 2; CallString]
           (LabThreadSafeData_ctor 2) = Some d2
    /\ counters d1 = counters d2.
Proof.
  apply (counters_order_independent 2 (LabThreadSafeData_ctor 2)
           [CallWrite 0 2; CallWrite 0 1; CallString]
           [CallWrite 0 1; CallWrite 0 2; CallString]).
  - repeat split.
  - repeat constructor; cbn; lia.
  - apply perm_swap.
Defined.

Lemma is_read_range (i : Z) (c : call) : 0 <= is_read i c <= 1.
Proof. destruct c as [j | |]; cbn; try lia. destruct (j =? i); lia. Qed.

Lemma is_write_range (i : Z) (c : call) : 0 <= is_write i c <= 1.
Proof. destruct c as [| j v |]; cbn; try lia. destruct (j =? i); lia. Qed.

Lemma is_string_range (c : call) : 0 <= is_string c <= 1.
Proof. destruct c; cbn; lia. Qed.

Lemma sumZ_map_le_length {A} (f : A -> Z) (l : list A) :
  (forall x, 0 <= f x <= 1) -> 0 <= sumZ (map f l) <= Z.of_nat (length l).
Proof.
  intros Hf. induction l as [|x l IH]; cbn [map sumZ length]; [lia|].
  specialize (Hf x). lia.
Qed.

Lemma bump_lookup (l : list Z) (i j c : Z) :
  0 <= i -> 0 <= j -> l !! Z.to_nat i = Some c ->
  bump l j !! Z.to_nat i = Some (if j =? i then incr c else c).
Proof.
  intros Hi Hj H. unfold bump. destruct (j =? i) eqn:E.
  - apply Z.eqb_eq in E. subst j. rewrite list_lookup_alter_eq, H. reflexivity.
  - apply Z.eqb_neq in E. rewrite list_lookup_alter_ne by lia. exact H.
Qed.

Lemma effects_read_count (m : nat) (cs : list call) (i : Z) :
  Forall (valid_call m) cs -> 0 <= i ->
  forall (d : LabThreadSafeData) (c : Z),
    read_count d !! Z.to_nat i = Some c -> 0 <= c ->
    c + reads_of i cs < SIZE_MODULUS ->
    read_count (effects cs d) !! Z.to_nat i = Some (c + reads_of i cs).
Proof.
  intros Hcs Hi. induction Hcs as [|c0 cs Hc0 _ IH]; intros d c Hc Hc' Hlt.
  - cbn. rewrite Z.add_0_r. exact Hc.
  - unfold reads_of in *. cbn [map sumZ] in *.
    pose proof (is_read_range i c0).
    pose proof (sumZ_map_nonneg (is_read i) (fun x => proj1 (is_read_range i x)) cs).
    change (effects (c0 :: cs) d) with (effects cs (effect c0 d)).
    rewrite (IH (effect c0 d) (c + is_read i c0)); [f_equal; lia | | lia | lia].
    destruct c0 as [j | j v |]; cbn [is_read effect read_count valid_call] in *;
      rewrite ?Z.add_0_r; try exact Hc.
    rewrite (bump_lookup _ i j c) by (assumption || lia).
    destruct (j =? i); [|rewrite Z.add_0_r; reflexivity].
    rewrite incr_small by lia. reflexivity.
Qed.

Lemma effects_write_count (m : nat) (cs : list call) (i : Z) :
  Forall (valid_call m) cs -> 0 <= i ->
  forall (d : LabThreadSafeData) (c : Z),
    write_count d !! Z.to_nat i = Some c -> 0 <= c ->
    c + writes_of i cs < SIZE_MODULUS ->
    write_count (effects cs d) !! Z.to_nat i = Some (c + writes_of i cs).
Proof.
  intros Hcs Hi. induction Hcs as [|c0 cs Hc0 _ IH]; intros d c Hc Hc' Hlt.
  - cbn. rewrite Z.add_0_r. exact Hc.
  - unfold writes_of in *. cbn [map sumZ] in *.
    pose proof (is_write_range i c0).
    pose proof (sumZ_map_nonneg (is_write i) (fun x => proj1 (is_write_range i x)) cs).
    change (effects (c0 :: cs) d) with (effects cs (effect c0 d)).
    rewrite (IH (effect c0 d) (c + is_write i c0)); [f_equal; lia | | lia | lia].
    destruct c0 as [j | j v |]; cbn [is_write effect write_count valid_call] in *;
      rewrite ?Z.add_0_r; try exact Hc.
    rewrite (bump_lookup _ i j c) by (assumption || lia).
    destruct (j =? i); [|rewrite Z.add_0_r; reflexivity].
    rewrite incr_small by lia. reflexivity.
Qed.

Lemma effects_scalar_counts (cs : list call) :
  forall d : LabThreadSafeData,
    0 <= string_count d -> 0 <= total_ops d ->
    string_count d + strings_of cs < SIZE_MODULUS ->
    total_ops d + Z.of_nat (length cs) < SIZE_MODULUS ->
    string_count (effects cs d) = string_count d + strings_of cs
    /\ total_ops (effects cs d) = total_ops d + Z.of_nat (length cs).
Proof.
  induction cs as [|c0 cs IH]; intros d Hs Ht Hls Hlt.
  - cbn. lia.
  - unfold strings_of in *. cbn [map sumZ length] in *.
    pose proof (is_string_range c0).
    pose proof (sumZ_map_nonneg is_string (fun x => proj1 (is_string_range x)) cs).
    change (effects (c0 :: cs) d) with (effects cs (effect c0 d)).
    assert (Ht' : total_ops (effect c0 d) = total_ops d + 1).
    { destruct c0; cbn [effect total_ops]; apply incr_small; lia. }
    assert (Hs' : string_count (effect c0 d) = string_count d + is_string c0).
    { destruct c0; cbn [effect string_count is_string] in *;
        rewrite ?Z.add_0_r; try reflexivity.
      apply incr_small; lia. }
    destruct (IH (effect c0 d)) as [E1 E2]; lia.
Qed.

(** X7. After fewer than [2^64] calls in range on a constructed store, each
    counter is the number of calls of its kind: the read counter of field
    [i] is the number of [readField(i)] calls, its write counter the number
    of [writeField(i, _)] calls, the string counter the number of string
    conversions, and the global counter the number of calls. *)
Theorem counters_count_calls (m : nat) (cs : list call) :
  Forall (valid_call m) cs -> Z.of_nat (length cs) < SIZE_MODULUS ->
  exists d,
    run cs (LabThreadSafeData_ctor m) = Some d
    /\ (forall i, 0 <= i < Z.of_nat m ->
          vec_get (read_count d) i = Some (reads_of i cs)
          /\ vec_get (write_count d) i = Some (writes_of i cs))
    /\ string_count d = strings_of cs
    /\ total_ops d = Z.of_nat (length cs).
Proof.
  intros Hcs Hlen.
  destruct (run_effects m cs (LabThreadSafeData_ctor m) (ctor_has_size m) Hcs)
    as [E (Hf & Hr & Hw)].
  exists (effects cs (LabThreadSafeData_ctor m)). split; [exact E|].
  pose proof (fun i => sumZ_map_le_length (is_read i) cs (is_read_range i)) as Br.
  pose proof (fun i => sumZ_map_le_length (is_write i) cs (is_write_range i)) as Bw.
  pose proof (sumZ_map_le_length is_string cs is_string_range) as Bs.
  split; [|apply (effects_scalar_counts cs (LabThreadSafeData_ctor m));
           cbn; unfold strings_of; lia].
  intros i Hi. unfold vec_get.
  rewrite !in_range_true by lia. split.
  - apply (effects_read_count m cs i Hcs (proj1 Hi) (LabThreadSafeData_ctor m) 0).
    + cbn. apply lookup_replicate_2. lia.
    + lia.
    + specialize (Br i). unfold reads_of. lia.
  - apply (effects_write_count m cs i Hcs (proj1 Hi) (LabThreadSafeData_ctor m) 0).
    + cbn. apply lookup_replicate_2. lia.
    + lia.
    + specialize (Bw i). unfold writes_of. lia.
Qed.

Lemma counters_count_calls_witness :
  exists d,
    run [CallRead 1; CallWrite 1 4; CallRead 1; CallString]
        (LabThreadSafeData_ctor 2) = Some d
    /\ (forall i, 0 <= i < 2 ->
          vec_get (read_count d) i
          = Some (reads_of i [CallRead 1; CallWrite 1 4; CallRead 1; CallString])
          /\ vec_get (write_count d) i
             = Some (writes_of i [CallRead 1; CallWrite 1 4; CallRead 1; CallString]))
    /\ string_count d = 1
    /\ total_ops d = 4.
Proof.
  apply (counters_count_calls 2 [CallRead 1; CallWrite 1 4; CallRead 1; CallString]).
  - repeat constructor; cbn; lia.
  - unfold SIZE_MODULUS. cbn. lia.
Defined.

(** ** The statistics report *)

Lemma stats_loop_eq (d : LabThreadSafeData) (ops : Z) (n : nat) :
  forall (i : Z) (out : list out_item),
    0 <= i ->
    i + Z.of_nat n = Z.of_nat (length (read_count d)) ->
    i + Z.of_nat n = Z.of_nat (length (write_count d)) ->
    i + Z.of_nat n < SIZE_MODULUS ->
    exists out',
      stats_loop d ops i n out = Some (out ++ out')
      /\ reported out'
         = concat (zip_with (fun r w => [percentage r ops; percentage w ops])
                     (drop (Z.to_nat i) (read_count d))
                     (drop (Z.to_nat i) (write_count d)))
      /\ length out' = (7 * n)%nat.
Proof.
  induction n as [|n IH]; intros i out Hi Hr Hw Hm.
  - exists []. cbn [stats_loop]. rewrite app_nil_r.
    rewrite !drop_ge by lia. auto.
  - cbn [stats_loop].
    destruct (vec_get_is_Some (read_count d) i) as [r Er]; [lia|].
    destruct (vec_get_is_Some (write_count d) i) as [w Ew]; [lia|].
    rewrite Er, Ew.
    apply vec_get_Some_inv in Er as [_ Er]. apply vec_get_Some_inv in Ew as [_ Ew].
    assert (Hwrap : wrap_size_t (i + 1) = i + 1).
    { unfold wrap_size_t. apply Z.mod_small. lia. }
    rewrite Hwrap.
    edestruct (IH (i + 1)) as (out' & E & Hrep & Hlen); [lia | lia | lia | lia |].
    rewrite E. eexists. rewrite <- app_assoc. split; [reflexivity|].
    rewrite (drop_S _ _ _ Er), (drop_S _ _ _ Ew).
    replace (S (Z.to_nat i)) with (Z.to_nat (i + 1)) by lia.
    split.
    + rewrite reported_app, Hrep. reflexivity.
    + rewrite length_app, Hlen. cbn [length]. lia.
Qed.

(** X8. On every store whose three vectors have the same size, [printStats]
    is defined (its loop over [fields.size()] never leaves the counter
    vectors) and prints, after the header, the read and the write percentage
    of each field in index order and then the string percentage, seven
    items per field; every percentage is taken against the same divisor,
    which is never 0. *)
Theorem printStats_report (m : nat) (d : LabThreadSafeData) :
  has_size m d -> Z.of_nat m < SIZE_MODULUS ->
  stats_divisor d <> 0
  /\ exists out,
       printStats d = Some out
       /\ reported out
          = concat (zip_with (fun r w => [percentage r (stats_divisor d);
                                          percentage w (stats_divisor d)])
                      (read_count d) (write_count d))
            ++ [percentage (string_count d) (stats_divisor d)]
       /\ length out = (7 * m + 4)%nat.
Proof.
  intros (Hf & Hr & Hw) Hm. split; [apply stats_divisor_nonzero|].
  unfold printStats. rewrite Hf.
  edestruct (stats_loop_eq d (stats_divisor d) m 0) as (out' & E & Hrep & Hlen);
    [lia | lia | lia | lia |].
  rewrite E. eexists. split; [reflexivity|]. split.
  - rewrite !reported_app, Hrep. reflexivity.
  - rewrite !length_app, Hlen. cbn [length]. lia.
Qed.

Lemma printStats_report_witness :
  stats_divisor (mkData [5; 0] [3; 0] [1; 0] 0 4) <> 0
  /\ exists out,
       printStats (mkData [5; 0] [3; 0] [1; 0] 0 4) = Some out
       /\ reported out
          = [percentage 3 4; percentage 1 4; percentage 0 4; percentage 0 4;
             percentage 0 4]
       /\ length out = 18%nat.
Proof.
  apply (printStats_report 2 (mkData [5; 0] [3; 0] [1; 0] 0 4)).
  - repeat split.
  - unfold SIZE_MODULUS. lia.
Defined.

(** ** The locks: exclusion, waiting, and the length of runs *)

Lemma sumZ_map_ge2 {A} (f : A -> Z) (l : list A) (k1 k2 : nat) (p1 p2 : A) :
  (forall x, 0 <= f x) -> k1 <> k2 ->
  l !! k1 = Some p1 -> l !! k2 = Some p2 ->
  f p1 + f p2 <= sumZ (map f l).
Proof.
  intros Hf. revert k1 k2.
  induction l as [|x l IH]; intros k1 k2 Hne H1 H2; [discriminate|].
  pose proof (sumZ_map_nonneg f Hf l). pose proof (Hf x).
  destruct k1 as [|k1], k2 as [|k2]; simpl in *; try congruence.
  - injection H1 as ->. pose proof (sumZ_map_ge f Hf l k2 p2 H2). lia.
  - injection H2 as ->. pose proof (sumZ_map_ge f Hf l k1 p1 H1). lia.
  - assert (k1 <> k2) by congruence. specialize (IH k1 k2 H3 H1 H2). lia.
Qed.

Lemma init_writer_alone (size : nat) (workers : list (list call)) :
  writer_alone (Locks.init size workers).
Proof.
  intros i m Hm _. cbn in Hm. apply vec_get_Some_inv in Hm as [_ Hm].
  apply lookup_replicate in Hm as [-> _]. reflexivity.
Qed.

Lemma step_writer_alone (st st' : Locks.state) :
  writer_alone st -> Locks.step st st' -> writer_alone st'.
Proof.
  intros Hinv Hstep. destruct Hstep as [st k a rest ms' _ Hperf].
  apply perform_inv in Hperf as (m & m' & Hm & -> & Ha).
  intros j mj Hj Hwj. cbn [Locks.mutexes] in Hj.
  apply vec_get_Some_inv in Hm as Hm'. destruct Hm' as [Hr _].
  destruct (Z.eq_dec (Locks.action_index a) j) as [Heq | Hne].
  - subst j. rewrite vec_get_insert_eq in Hj by exact Hr. injection Hj as <-.
    destruct a as [i | i | i | i].
    + destruct Ha as [_ ->]. discriminate.
    + subst m'. cbn in Hwj |- *. rewrite (Hinv _ _ Hm Hwj). reflexivity.
    + destruct Ha as (_ & _ & ->). reflexivity.
    + subst m'. discriminate.
  - rewrite vec_get_insert_ne in Hj by lia. exact (Hinv _ _ Hj Hwj).
Qed.

Lemma reachable_writer_alone (size : nat) (workers : list (list call))
    (st : Locks.state) :
  rtc Locks.step (Locks.init size workers) st -> writer_alone st.
Proof.
  intros Hrtc.
  assert (G : forall s s', rtc Locks.step s s' -> writer_alone s -> writer_alone s').
  { induction 1 as [|s s1 s2 Hstep _ IH]; intros H; [exact H|].
    apply IH. eapply step_writer_alone; eassumption. }
  exact (G _ _ Hrtc (init_writer_alone size workers)).
Qed.

(** X9. Writers are exclusive per field: in every state the workers can
    reach, while one worker is inside [writeField] on field [i] (it holds
    the mutex of [i] exclusively and releases it next), no other worker
    holds that mutex, shared or exclusive. *)
Theorem writers_are_exclusive (size : nat) (workers : list (list call))
    (st : Locks.state) (i : Z) (k1 k2 : nat) (p1 p2 : list Locks.action) :
  Forall (Forall (valid_call size)) workers ->
  rtc Locks.step (Locks.init size workers) st ->
  k1 <> k2 ->
  Locks.threads st !! k1 = Some p1 -> Locks.threads st !! k2 = Some p2 ->
  Locks.holds_excl i p1 = 1 ->
  Locks.holds_shared i p2 = 0 /\ Locks.holds_excl i p2 = 0.
Proof.
  intros Hw Hreach Hne H1 H2 Hex.
  pose proof (reachable_consistent size _ _ (init_consistent size workers Hw)
                Hreach) as (Hlen & _ & Hidx & Hmx).
  pose proof (reachable_writer_alone size workers st Hreach) as Halone.
  assert (Hi : 0 <= i < Z.of_nat size).
  { pose proof (proj1 (Forall_lookup _ _) Hidx k1 _ H1) as Hp1.
    destruct p1 as [|[j | j | j | j] p1]; cbn in Hex; try lia.
    destruct (j =? i) eqn:E; [|lia]. apply Z.eqb_eq in E. subst j.
    apply Forall_cons in Hp1 as [Hp1 _]. exact Hp1. }
  destruct (vec_get_is_Some (Locks.mutexes st) i) as [m Hm]; [lia|].
  destruct (Hmx _ _ Hm) as [Hs He].
  pose proof (sumZ_map_ge2 (Locks.holds_excl i) (Locks.threads st) k1 k2 p1 p2
                (fun p => proj1 (holds_excl_range i p)) Hne H1 H2) as Hsum.
  pose proof (holds_excl_range i p2). pose proof (holds_shared_range i p2).
  assert (Hwr : Locks.writer m = true)
    by (destruct (Locks.writer m); [reflexivity | cbn in He; lia]).
  rewrite Hwr in He. cbn in He. split; [|lia].
  rewrite (Halone _ _ Hm Hwr) in Hs.
  pose proof (sumZ_map_ge (Locks.holds_shared i)
                (fun p => proj1 (holds_shared_range i p)) _ k2 p2 H2).
  lia.
Qed.

Lemma writers_are_exclusive_witness :
  Locks.holds_shared 0 [Locks.LockShared 0; Locks.UnlockShared 0] = 0
  /\ Locks.holds_excl 0 [Locks.LockShared 0; Locks.UnlockShared 0] = 0.
Proof.
  apply (writers_are_exclusive 1 [[CallWrite 0 5]; [CallRead 0]]
           (Locks.mkState [Locks.mkMutex 0 true]
              [[Locks.UnlockExcl 0]; [Locks.LockShared 0; Locks.UnlockShared 0]])
           0 0%nat 1%nat [Locks.UnlockExcl 0]
           [Locks.LockShared 0; Locks.UnlockShared 0]).
  - repeat constructor; cbn; lia.
  - apply rtc_once.
    exact (Locks.step_worker (Locks.init 1 [[CallWrite 0 5]; [CallRead 0]])
             0 (Locks.LockExcl 0) [Locks.UnlockExcl 0] [Locks.mkMutex 0 true]
             eq_refl eq_refl).
  - lia.
  - reflexivity.
  - reflexivity.
  - reflexivity.
Defined.

(** X10. When a worker has to wait. In every reachable state, with [a] the
    next action of some worker: a shared lock of field [i] can be taken
    exactly when no worker holds the mutex of [i] exclusively (readers do
    not wait for readers); an exclusive lock of field [i] can be taken
    exactly when no worker holds the mutex of [i] at all; an unlock never
    waits. What is held on other fields plays no part. *)
Theorem waits_only_for_same_field (size : nat) (workers : list (list call))
    (st : Locks.state) (k : nat) (a : Locks.action) (rest : list Locks.action) :
  Forall (Forall (valid_call size)) workers ->
  rtc Locks.step (Locks.init size workers) st ->
  Locks.threads st !! k = Some (a :: rest) ->
  match a with
  | Locks.LockShared i =>
      enabled a st
      <-> Forall (fun p => Locks.holds_excl i p = 0) (Locks.threads st)
  | Locks.LockExcl i =>
      enabled a st
      <-> Forall (fun p => Locks.holds_shared i p = 0 /\ Locks.holds_excl i p = 0)
                 (Locks.threads st)
  | Locks.UnlockShared _ | Locks.UnlockExcl _ => enabled a st
  end.
Proof.
  intros Hw Hreach Hk.
  pose proof (reachable_consistent size _ _ (init_consistent size workers Hw)
                Hreach) as (Hlen & _ & Hidx & Hmx).
  pose proof (proj1 (Forall_lookup _ _) Hidx k _ Hk) as Hthri.
  apply Forall_cons in Hthri as [Hai _].
  destruct (vec_get_is_Some (Locks.mutexes st) (Locks.action_index a))
    as [m Hm]; [lia|].
  destruct (Hmx _ _ Hm) as [Hs He].
  assert (Hin : 0 <= Locks.action_index a
                < Z.of_nat (length (Locks.mutexes st))) by lia.
  unfold enabled.
  destruct a as [i | i | i | i]; cbn [Locks.action_index Locks.perform] in *;
    rewrite Hm.
  - split.
    + intros [ms' H]. destruct (Locks.writer m) eqn:Hwr; [discriminate|].
      cbn in He. apply Forall_lookup. intros k' p' Hk'.
      pose proof (sumZ_map_ge (Locks.holds_excl i)
                    (fun p => proj1 (holds_excl_range i p)) _ k' p' Hk').
      pose proof (holds_excl_range i p'). lia.
    + intros Hall. rewrite (sumZ_map_zero _ _ Hall) in He.
      destruct (Locks.writer m); [cbn in He; lia|].
      rewrite vec_set_is_Some by exact Hin. eauto.
  - rewrite vec_set_is_Some by exact Hin. eauto.
  - split.
    + intros [ms' H]. destruct (Locks.writer m) eqn:Hwr; [discriminate|].
      destruct (Nat.eqb (Locks.readers m) 0) eqn:Hrd; [|discriminate].
      apply Nat.eqb_eq in Hrd. rewrite Hrd in Hs. cbn in He, Hs.
      apply Forall_lookup. intros k' p' Hk'.
      pose proof (sumZ_map_ge (Locks.holds_excl i)
                    (fun p => proj1 (holds_excl_range i p)) _ k' p' Hk').
      pose proof (sumZ_map_ge (Locks.holds_shared i)
                    (fun p => proj1 (holds_shared_range i p)) _ k' p' Hk').
      pose proof (holds_excl_range i p'). pose proof (holds_shared_range i p').
      lia.
    + intros Hall.
      rewrite (sumZ_map_zero (Locks.holds_excl i) (Locks.threads st)) in He
        by (eapply Forall_impl; [exact Hall | intros p [_ H]; exact H]).
      rewrite (sumZ_map_zero (Locks.holds_shared i) (Locks.threads st)) in Hs
        by (eapply Forall_impl; [exact Hall | intros p [H _]; exact H]).
      destruct (Locks.writer m); [cbn in He; lia|].
      replace (Locks.readers m) with O by lia. cbn.
      rewrite vec_set_is_Some by exact Hin. eauto.
  - rewrite vec_set_is_Some by exact Hin. eauto.
Qed.

Lemma waits_only_for_same_field_witness :
  enabled (Locks.LockShared 1)
    (Locks.mkState [Locks.mkMutex 0 true; Locks.unlocked]
       [[Locks.UnlockExcl 0]; [Locks.LockShared 1; Locks.UnlockShared 1]])
  <-> Forall (fun p => Locks.holds_excl 1 p = 0)
        [[Locks.UnlockExcl 0]; [Locks.LockShared 1; Locks.UnlockShared 1]].
Proof.
  apply (waits_only_for_same_field 2 [[CallWrite 0 5]; [CallRead 1]]
           (Locks.mkState [Locks.mkMutex 0 true; Locks.unlocked]
              [[Locks.UnlockExcl 0]; [Locks.LockShared 1; Locks.UnlockShared 1]])
           1%nat (Locks.LockShared 1) [Locks.UnlockShared 1]).
  - repeat constructor; cbn; lia.
  - apply rtc_once.
    exact (Locks.step_worker (Locks.init 2 [[CallWrite 0 5]; [CallRead 1]])
             0 (Locks.LockExcl 0) [Locks.UnlockExcl 0]
             [Locks.mkMutex 0 true; Locks.unlocked] eq_refl eq_refl).
  - reflexivity.
Defined.

(** X11. No worker ever holds two mutexes: in every reachable state, a
    worker about to lock the mutex of field [i] releases that same mutex
    before it does anything else. This holds for the string conversion too,
    which locks and releases the fields one at a time. *)
Theorem one_mutex_at_a_time (size : nat) (workers : list (list call))
    (st : Locks.state) (k : nat) (a : Locks.action) (rest : list Locks.action) :
  Forall (Forall (valid_call size)) workers ->
  rtc Locks.step (Locks.init size workers) st ->
  Locks.threads st !! k = Some (a :: rest) ->
  match a with
  | Locks.LockShared i => head rest = Some (Locks.UnlockShared i)
  | Locks.LockExcl i => head rest = Some (Locks.UnlockExcl i)
  | Locks.UnlockShared _ | Locks.UnlockExcl _ =>
      match rest with
      | [] | Locks.LockShared _ :: _ | Locks.LockExcl _ :: _ => True
      | _ => False
      end
  end.
Proof.
  intros Hw Hreach Hk.
  pose proof (reachable_consistent size _ _ (init_consistent size workers Hw)
                Hreach) as (_ & Hok & _ & _).
  pose proof (proj1 (Forall_lookup _ _) Hok k _ Hk) as [Hp | (i & p' & Hp' & [E | E])].
  - inversion Hp; subst; reflexivity.
  - injection E as -> ->. destruct Hp'; exact I.
  - injection E as -> ->. destruct Hp'; exact I.
Qed.

Lemma one_mutex_at_a_time_witness :
  head [Locks.UnlockShared 1; Locks.LockShared 2; Locks.UnlockShared 2]
  = Some (Locks.UnlockShared 1).
Proof.
  apply (one_mutex_at_a_time 3 [[CallString]]
           (Locks.mkState [Locks.unlocked; Locks.unlocked; Locks.unlocked]
              [[Locks.LockShared 1; Locks.UnlockShared 1;
                Locks.LockShared 2; Locks.UnlockShared 2]])
           0%nat (Locks.LockShared 1)
           [Locks.UnlockShared 1; Locks.LockShared 2; Locks.UnlockShared 2]).
  - repeat constructor.
  - eapply rtc_l.
    + exact (Locks.step_worker (Locks.init 3 [[CallString]])
               0 (Locks.LockShared 0)
               [Locks.UnlockShared 0; Locks.LockShared 1; Locks.UnlockShared 1;
                Locks.LockShared 2; Locks.UnlockShared 2]
               [Locks.mkMutex 1 false; Locks.unlocked; Locks.unlocked]
               eq_refl eq_refl).
    + apply rtc_once.
      exact (Locks.step_worker
               (Locks.mkState
                  [Locks.mkMutex 1 false; Locks.unlocked; Locks.unlocked]
                  [[Locks.UnlockShared 0; Locks.LockShared 1;
                    Locks.UnlockShared 1; Locks.LockShared 2;
                    Locks.UnlockShared 2]])
               0 (Locks.UnlockShared 0)
               [Locks.LockShared 1; Locks.UnlockShared 1;
                Locks.LockShared 2; Locks.UnlockShared 2]
               [Locks.unlocked; Locks.unlocked; Locks.unlocked]
               eq_refl eq_refl).
  - reflexivity.
Defined.

Lemma actions_string_length (n : nat) (i : Z) :
  Z.of_nat (length (Locks.actions_string i n)) = 2 * Z.of_nat n.
Proof.
  revert i. induction n as [|n IH]; intros i; cbn [Locks.actions_string length].
  - reflexivity.
  - specialize (IH (i + 1)). lia.
Qed.

Lemma program_length (size : nat) (cs : list call) :
  Z.of_nat (length (Locks.program size cs)) = sumZ (map (call_actions size) cs).
Proof.
  induction cs as [|c cs IH]; cbn [Locks.program map sumZ]; [reflexivity|].
  rewrite length_app, Nat2Z.inj_add, IH. f_equal.
  destruct c; cbn; try reflexivity. apply actions_string_length.
Qed.

Lemma init_remaining (size : nat) (workers : list (list call)) :
  Locks.remaining (Locks.init size workers)
  = sumZ (map (fun cs => sumZ (map (call_actions size) cs)) workers).
Proof.
  unfold Locks.remaining, Locks.init. cbn [Locks.threads].
  induction workers as [|cs workers IH]; cbn [map sumZ]; [reflexivity|].
  rewrite IH, program_length. reflexivity.
Qed.

Lemma nsteps_remaining (n : nat) (st st' : Locks.state) :
  nsteps Locks.step n st st' ->
  Locks.remaining st' = Locks.remaining st - Z.of_nat n.
Proof.
  induction 1 as [st | n st st1 st2 Hstep _ IH]; [lia|].
  rewrite IH, (step_remaining _ _ Hstep). lia.
Qed.

Lemma remaining_zero_finished (st : Locks.state) :
  Locks.remaining st = 0 <-> Locks.finished st.
Proof.
  unfold Locks.remaining, Locks.finished.
  induction (Locks.threads st) as [|p ts IH]; cbn [map sumZ].
  - split; [constructor | reflexivity].
  - pose proof (sumZ_map_nonneg (fun p => Z.of_nat (length p))
                  (fun p => Nat2Z.is_nonneg (length p)) ts).
    split.
    + intros H0. constructor; [destruct p; [reflexivity | cbn in H0; lia]|].
      apply IH. lia.
    + intros Hall. apply Forall_cons in Hall as [-> Hall].
      apply IH in Hall. cbn. lia.
Qed.

(** X12. Every run of the workers has the same length, whatever the
    interleaving: two lock operations per [readField] or [writeField] call
    and two per field for every string conversion. A run is never longer
    than that, and the workers have all finished exactly when that many
    steps have been made. *)
Theorem runs_have_fixed_length (size : nat) (workers : list (list call))
    (n : nat) (st : Locks.state) :
  nsteps Locks.step n (Locks.init size workers) st ->
  Z.of_nat n <= sumZ (map (fun cs => sumZ (map (call_actions size) cs)) workers)
  /\ (Locks.finished st
      <-> Z.of_nat n
          = sumZ (map (fun cs => sumZ (map (call_actions size) cs)) workers)).
Proof.
  intros Hn. pose proof (nsteps_remaining _ _ _ Hn) as Hrem.
  rewrite init_remaining in Hrem.
  pose proof (sumZ_map_nonneg (fun p => Z.of_nat (length p))
                (fun p => Nat2Z.is_nonneg (length p)) (Locks.threads st)) as H0.
  fold (Locks.remaining st) in H0.
  split; [lia|]. rewrite <- remaining_zero_finished. lia.
Qed.

Lemma runs_have_fixed_length_witness :
  1 <= 4
  /\ (Locks.finished
        (Locks.mkState [Locks.mkMutex 1 false]
           [[Locks.UnlockShared 0]; [Locks.LockExcl 0; Locks.UnlockExcl 0]])
      <-> 1 = 4).
Proof.
  apply (runs_have_fixed_length 1 [[CallRead 0]; [CallWrite 0 3]] 1%nat
           (Locks.mkState [Locks.mkMutex 1 false]
              [[Locks.UnlockShared 0]; [Locks.LockExcl 0; Locks.UnlockExcl 0]])).
  apply nsteps_once.
  exact (Locks.step_worker (Locks.init 1 [[CallRead 0]; [CallWrite 0 3]])
           0 (Locks.LockShared 0) [Locks.UnlockShared 0]
           [Locks.mkMutex 1 false] eq_refl eq_refl).
Defined.

(** ** Decimal numbers in a line *)

Lemma take_digits_uint (d : Decimal.uint) :
  forall (rest : string) (acc : Z) (n : nat),
    no_digit_head rest = true ->
    take_digits (NilEmpty.string_of_uint d ++ rest) acc n
    = (uint_acc d acc, (n + Decimal.nb_digits d)%nat, rest).
Proof.
  induction d as [|d IH|d IH|d IH|d IH|d IH|d IH|d IH|d IH|d IH|d IH];
    intros rest acc n Hrest;
    [| cbn [NilEmpty.string_of_uint append take_digits uint_acc Decimal.nb_digits];
       match goal with
       | |- context [isdigit ?c] => change (isdigit c) with true
       end; cbv iota; rewrite (IH rest _ (S n) Hrest);
       apply f_equal2; [apply f_equal2; [reflexivity | lia] | reflexivity] ..].
  cbn [NilEmpty.string_of_uint append uint_acc Decimal.nb_digits].
  rewrite Nat.add_0_r. destruct rest as [|c rest]; [reflexivity|].
  cbn in Hrest |- *. apply negb_true_iff in Hrest. rewrite Hrest. reflexivity.
Qed.

Lemma uint_acc_pos (d : Decimal.uint) :
  forall acc : positive, uint_acc d (Zpos acc) = Zpos (Pos.of_uint_acc d acc).
Proof.
  induction d; intros acc; cbn [uint_acc Pos.of_uint_acc];
    try reflexivity;
    match goal with
    | |- uint_acc _ ?z = _ =>
        match goal with
        | |- _ = Zpos (Pos.of_uint_acc _ ?p) =>
            replace z with (Zpos p) by lia
        end
    end; auto.
Qed.

Lemma uint_acc_of_uint (d : Decimal.uint) :
  uint_acc d 0 = Z.of_N (Pos.of_uint d).
Proof.
  induction d; cbn [uint_acc Pos.of_uint]; try reflexivity; try assumption;
    match goal with
    | |- uint_acc _ ?z = _ => change z with (Zpos (Z.to_pos z))
    end; rewrite uint_acc_pos; reflexivity.
Qed.

Lemma uint_acc_to_uint (p : positive) : uint_acc (Pos.to_uint p) 0 = Zpos p.
Proof. rewrite uint_acc_of_uint, DecimalPos.Unsigned.of_to. reflexivity. Qed.

Lemma uint_acc_nonneg (d : Decimal.uint) :
  forall acc, 0 <= acc -> 0 <= uint_acc d acc.
Proof. induction d; intros acc H; cbn [uint_acc]; try assumption; apply IHd; lia. Qed.

Lemma nb_digits_nonnil (d : Decimal.uint) :
  d <> Decimal.Nil -> exists n, Decimal.nb_digits d = S n.
Proof. destruct d; [congruence | cbn; eauto ..]. Qed.

Lemma extract_int_skip_space (s : string) :
  extract_int (mkStream (String " " s) true) = extract_int (mkStream s true).
Proof. reflexivity. Qed.

(** Digits at the head of a good stream, followed by something that is not
    a digit. *)
Lemma extract_int_digits (d : Decimal.uint) (rest : string) :
  d <> Decimal.Nil -> no_digit_head rest = true ->
  uint_acc d 0 <= INT_MAX ->
  extract_int (mkStream (NilEmpty.string_of_uint d ++ rest) true)
  = (Some (uint_acc d 0), mkStream rest (negb (is_empty rest))).
Proof.
  intros Hd Hrest Hmax.
  pose proof (uint_acc_nonneg d 0 ltac:(lia)) as Hnn.
  destruct (nb_digits_nonnil d Hd) as [k Hk].
  assert (Hbuf : exists c s, (NilEmpty.string_of_uint d ++ rest)%string = String c s
                             /\ isspace c = false
                             /\ (let (neg, body) :=
                                   match String c s with
                                   | String "-" r => (true, r)
                                   | String "+" r => (false, r)
                                   | b => (false, b)
                                   end in (neg, body)) = (false, String c s)).
  { destruct d; [congruence | cbn [NilEmpty.string_of_uint append];
                 eexists _, _; repeat split ..]. }
  destruct Hbuf as (c & s & Ebuf & Hsp & Hsign).
  unfold extract_int, sentry. cbn [good buf]. rewrite Ebuf.
  cbn [skipws]. rewrite Hsp. cbn [is_empty buf].
  destruct (match String c s with
            | String "-" r => (true, r)
            | String "+" r => (false, r)
            | b => (false, b)
            end) as [neg body] eqn:Esign.
  injection Hsign as -> ->.
  rewrite <- Ebuf, (take_digits_uint d rest 0 0 Hrest), Hk. cbn [Nat.add].
  replace (uint_acc d 0 <? INT_MIN) with false
    by (symmetry; apply Z.ltb_ge; unfold INT_MIN; lia).
  replace (INT_MAX <? uint_acc d 0) with false
    by (symmetry; apply Z.ltb_ge; lia).
  reflexivity.
Qed.

(** A minus sign and digits at the head of a good stream. *)
Lemma extract_int_minus_digits (d : Decimal.uint) (rest : string) :
  d <> Decimal.Nil -> no_digit_head rest = true ->
  INT_MIN <= - uint_acc d 0 ->
  extract_int (mkStream (String "-" (NilEmpty.string_of_uint d ++ rest)) true)
  = (Some (- uint_acc d 0), mkStream rest (negb (is_empty rest))).
Proof.
  intros Hd Hrest Hmin.
  pose proof (uint_acc_nonneg d 0 ltac:(lia)) as Hnn.
  destruct (nb_digits_nonnil d Hd) as [k Hk].
  unfold extract_int, sentry. cbn [good buf skipws].
  change (isspace "-") with false. cbn [is_empty buf].
  rewrite (take_digits_uint d rest 0 0 Hrest), Hk. cbn [Nat.add].
  replace (- uint_acc d 0 <? INT_MIN) with false
    by (symmetry; apply Z.ltb_ge; lia).
  replace (INT_MAX <? - uint_acc d 0) with false
    by (symmetry; apply Z.ltb_ge; unfold INT_MAX; lia).
  reflexivity.
Qed.

(** Reading back the decimal text of an [int]. *)
Lemma extract_int_show (v : Z) (rest : string) :
  INT_MIN <= v <= INT_MAX -> no_digit_head rest = true ->
  extract_int (mkStream (show_int v ++ rest) true)
  = (Some v, mkStream rest (negb (is_empty rest))).
Proof.
  intros Hv Hrest. unfold show_int. destruct v as [|p|p]; cbn [Z.to_int].
  - apply (extract_int_digits (Decimal.D0 Decimal.Nil) rest);
      [discriminate | exact Hrest | cbn; unfold INT_MAX; lia].
  - pose proof (DecimalPos.Unsigned.to_uint_nonnil p) as Hnil.
    pose proof (uint_acc_to_uint p) as Hval.
    cbn [NilZero.string_of_int]. unfold NilZero.string_of_uint.
    destruct (Pos.to_uint p) eqn:E; [congruence | ..];
      rewrite <- Hval; apply extract_int_digits;
      (discriminate || assumption || (rewrite Hval; lia)).
  - pose proof (DecimalPos.Unsigned.to_uint_nonnil p) as Hnil.
    pose proof (uint_acc_to_uint p) as Hval.
    cbn [NilZero.string_of_int append]. unfold NilZero.string_of_uint.
    replace (Zneg p) with (- uint_acc (Pos.to_uint p) 0) by (rewrite Hval; lia).
    destruct (Pos.to_uint p) eqn:E; [congruence | ..];
      apply extract_int_minus_digits;
      (discriminate || assumption || (rewrite Hval; lia)).
Qed.

(** ** Well-formed lines *)

Lemma starts_blank_no_digit (s : string) :
  starts_blank s = true -> no_digit_head s = true.
Proof.
  destruct s as [|c s]; [reflexivity|]. cbn. unfold isspace, isdigit.
  intros H. apply negb_true_iff. apply andb_false_iff.
  apply orb_prop in H as [H | H].
  - apply Nat.eqb_eq in H. rewrite H. left. reflexivity.
  - apply andb_prop in H as [_ H]. apply Nat.leb_le in H.
    left. apply Nat.leb_gt. lia.
Qed.

Lemma size_t_of_int_index (i : Z) : 0 <= i <= INT_MAX -> size_t_of_int i = i.
Proof.
  intros H. unfold size_t_of_int, wrap_size_t, SIZE_MODULUS, INT_MAX in *.
  apply Z.mod_small. lia.
Qed.

Lemma exec_line_read (d : LabThreadSafeData) (x : string) :
  exec_line d ("read " ++ x)
  = (let (idx, iss2) := extract_int (mkStream (String " " x) true) in
     let* idx := idx in
     let* r := readField d (size_t_of_int idx) in
     Some (snd r)).
Proof. reflexivity. Qed.

Lemma exec_line_write (d : LabThreadSafeData) (x : string) :
  exec_line d ("write " ++ x)
  = (let (idx, iss2) := extract_int (mkStream (String " " x) true) in
     let (val, iss3) := extract_int iss2 in
     let* idx := idx in
     let* val := val in
     writeField d (size_t_of_int idx) val).
Proof. reflexivity. Qed.

Lemma take_word_word (w tail : string) :
  no_blank w = true -> starts_blank tail = true ->
  take_word (w ++ tail) = (w, tail).
Proof.
  intros Hw Htail. induction w as [|c w IH].
  - destruct tail as [|c t]; [reflexivity|]. cbn in Htail |- *.
    rewrite Htail. reflexivity.
  - cbn in Hw. apply andb_prop in Hw as [Hc Hw]. apply negb_true_iff in Hc.
    cbn [append take_word]. rewrite Hc, (IH Hw). reflexivity.
Qed.

(** [iss >> cmd] on a fresh stream that starts with the word [w]. *)
Lemma extract_string_word (w tail cur : string) :
  w <> EmptyString -> no_blank w = true -> starts_blank tail = true ->
  extract_string (mkStream (w ++ tail) true) cur
  = (w, mkStream tail (negb (is_empty tail))).
Proof.
  intros Hne Hw Htail. unfold extract_string, sentry. cbn [good buf].
  destruct w as [|c w]; [congruence|].
  pose proof Hw as Hw'. cbn in Hw'. apply andb_prop in Hw' as [Hc _].
  apply negb_true_iff in Hc.
  cbn [append skipws]. rewrite Hc. cbn [is_empty buf].
  change (String c (w ++ tail)) with (String c w ++ tail)%string.
  rewrite (take_word_word _ _ Hw Htail). reflexivity.
Qed.

Lemma exec_line_string (d : LabThreadSafeData) (tail : string) :
  starts_blank tail = true ->
  exec_line d ("string" ++ tail) = Some (snd (operator_string d)).
Proof.
  intros Htail. unfold exec_line.
  rewrite (extract_string_word "string" tail EmptyString)
    by (discriminate || reflexivity || assumption).
  reflexivity.
Qed.

Lemma exec_line_of_call (d : LabThreadSafeData) (c : call) (tail : string) :
  int_call c -> starts_blank tail = true ->
  exec_line d (line_of_call c ++ tail) = do_call c d.
Proof.
  intros Hc Htail. pose proof (starts_blank_no_digit tail Htail) as Hnd.
  destruct c as [i | i v |]; cbn [line_of_call int_call do_call] in *.
  - rewrite append_assoc, exec_line_read, extract_int_skip_space.
    rewrite extract_int_show by (unfold INT_MIN; lia || assumption).
    rewrite size_t_of_int_index by exact Hc. reflexivity.
  - destruct Hc as [Hi Hv].
    rewrite !append_assoc, exec_line_write, extract_int_skip_space.
    rewrite extract_int_show by (reflexivity || (unfold INT_MIN; lia)).
    cbn [append is_empty negb]. rewrite extract_int_skip_space.
    rewrite extract_int_show by (assumption || lia).
    rewrite size_t_of_int_index by exact Hi. reflexivity.
  - apply exec_line_string. exact Htail.
Qed.

(** X13. A well-formed line is replayed as the call it names: [read i],
    [write i v] and [string], with [i] and [v] the decimal texts of [int]s
    and [i] not negative, perform [readField(i)], [writeField(i, v)] and the
    string conversion. Whatever follows the arguments after white space is
    ignored. *)
Theorem well_formed_line_replays (d : LabThreadSafeData) (c : call)
    (tail : string) :
  int_call c -> starts_blank tail = true ->
  exec_line d (line_of_call c ++ tail) = do_call c d
  /\ exec_line d (line_of_call c) = do_call c d.
Proof.
  intros Hc Htail. split; [apply exec_line_of_call; assumption|].
  rewrite <- (append_nil_r (line_of_call c)).
  apply exec_line_of_call; [exact Hc | reflexivity].
Qed.

Lemma well_formed_line_replays_witness :
  exec_line (LabThreadSafeData_ctor 3) (line_of_call (CallWrite 2 (-40)) ++ " # note")
  = do_call (CallWrite 2 (-40)) (LabThreadSafeData_ctor 3)
  /\ exec_line (LabThreadSafeData_ctor 3) (line_of_call (CallWrite 2 (-40)))
     = do_call (CallWrite 2 (-40)) (LabThreadSafeData_ctor 3).
Proof.
  apply (well_formed_line_replays (LabThreadSafeData_ctor 3)
           (CallWrite 2 (-40)) " # note").
  - cbn. unfold INT_MAX, INT_MIN. lia.
  - reflexivity.
Defined.

Example line_of_call_ex :
  map line_of_call [CallRead 0; CallWrite 1 1; CallWrite 2 (-40); CallString]
  = ["read 0"; "write 1 1"; "write 2 -40"; "string"]%string.
Proof. reflexivity. Qed.

(** ** Files of well-formed lines *)

Lemma has_newline_app (s1 s2 : string) :
  has_newline (s1 ++ s2) = has_newline s1 || has_newline s2.
Proof.
  induction s1 as [|c s1 IH]; [reflexivity|].
  cbn [append has_newline]. rewrite IH. apply orb_assoc.
Qed.

Lemma has_newline_uint (d : Decimal.uint) :
  has_newline (NilEmpty.string_of_uint d) = false.
Proof. induction d; cbn [NilEmpty.string_of_uint has_newline]; [reflexivity | exact IHd ..]. Qed.

Lemma has_newline_show_int (v : Z) : has_newline (show_int v) = false.
Proof.
  unfold show_int.
  assert (H : forall d, has_newline (NilZero.string_of_uint d) = false).
  { intros d. unfold NilZero.string_of_uint.
    destruct d; [reflexivity | apply has_newline_uint ..]. }
  destruct v; cbn [Z.to_int NilZero.string_of_int has_newline]; rewrite ?H; reflexivity.
Qed.

Lemma has_newline_line_of_call (c : call) : has_newline (line_of_call c) = false.
Proof.
  destruct c; cbn [line_of_call]; rewrite ?has_newline_app, ?has_newline_show_int;
    reflexivity.
Qed.

Lemma exec_lines_of_calls (cs : list call) :
  Forall int_call cs ->
  forall d, exec_lines d (map line_of_call cs) = run cs d.
Proof.
  induction 1 as [|c cs Hc _ IH]; intros d; [reflexivity|].
  cbn [map exec_lines run].
  rewrite <- (append_nil_r (line_of_call c)).
  rewrite (exec_line_of_call d c EmptyString Hc eq_refl).
  destruct (do_call c d); [apply IH | reflexivity].
Qed.

(** X14. Replaying the file that lists a sequence of calls, one well-formed
    line per call, is making these calls in that order: the file is defined
    exactly when the calls are, and leaves the same store. *)
Theorem call_file_replays (d : LabThreadSafeData) (cs : list call) :
  Forall int_call cs ->
  executeFile d (Some (write_lines (map line_of_call cs))) = run cs d.
Proof.
  intros Hcs. unfold executeFile. rewrite getlines_write_lines.
  - apply exec_lines_of_calls. exact Hcs.
  - apply Forall_map. apply Forall_forall. intros c _.
    apply has_newline_line_of_call.
Qed.

Lemma call_file_replays_witness :
  executeFile (LabThreadSafeData_ctor 3)
    (Some (write_lines (map line_of_call
                          [CallWrite 0 12; CallRead 0; CallString; CallWrite 2 (-3)])))
  = run [CallWrite 0 12; CallRead 0; CallString; CallWrite 2 (-3)]
        (LabThreadSafeData_ctor 3).
Proof.
  apply (call_file_replays (LabThreadSafeData_ctor 3)
           [CallWrite 0 12; CallRead 0; CallString; CallWrite 2 (-3)]).
  repeat constructor; cbn; unfold INT_MAX, INT_MIN; lia.
Defined.

(** ** Replaying a generated file *)

Lemma sumZ_app (l1 l2 : list Z) : sumZ (l1 ++ l2) = sumZ l1 + sumZ l2.
Proof. induction l1 as [|x l1 IH]; cbn [app sumZ]; lia. Qed.

Lemma sumZ_map_replicate {A} (f : A -> Z) (n : nat) (x : A) :
  sumZ (map f (replicate n x)) = Z.of_nat n * f x.
Proof. induction n as [|n IH]; cbn [replicate map sumZ]; lia. Qed.

Lemma sumZ_map_perm {A} (f : A -> Z) (l l' : list A) :
  Permutation l l' -> sumZ (map f l) = sumZ (map f l').
Proof. induction 1; cbn [map sumZ]; lia. Qed.

Lemma map_replicate {A B} (f : A -> B) (n : nat) (x : A) :
  map f (replicate n x) = replicate n (f x).
Proof. induction n as [|n IH]; cbn [replicate map]; [reflexivity | rewrite IH; reflexivity]. Qed.

Lemma kind_ops_planned (num_ops : Z) (percents : OpsPercent)
    (c1 c2 c3 c4 c5 c6 c7 : Z) :
  op_count num_ops (read1 percents) = Some c1 ->
  op_count num_ops (write1 percents) = Some c2 ->
  op_count num_ops (read2 percents) = Some c3 ->
  op_count num_ops (write2 percents) = Some c4 ->
  op_count num_ops (read3 percents) = Some c5 ->
  op_count num_ops (write3 percents) = Some c6 ->
  op_count num_ops (string_op percents) = Some c7 ->
  kind_ops num_ops percents
  = Some (map line_of_call (planned_calls c1 c2 c3 c4 c5 c6 c7)).
Proof.
  intros H1 H2 H3 H4 H5 H6 H7. unfold kind_ops.
  rewrite H1, H2, H3, H4, H5, H6, H7. unfold push_back_n, planned_calls.
  rewrite !map_app, !map_replicate, <- !app_assoc. reflexivity.
Qed.

Lemma planned_calls_ok (m : nat) (n1 n2 n3 n4 n5 n6 n7 : Z) (pad : nat) :
  (3 <= m)%nat ->
  Forall (fun c => int_call c /\ valid_call m c /\ writes_one c)
         (planned_calls n1 n2 n3 n4 n5 n6 n7 ++ replicate pad CallString).
Proof.
  intros Hm. unfold planned_calls.
  repeat (apply Forall_app; split);
    apply Forall_replicate; cbn; unfold INT_MAX, INT_MIN; repeat split; lia.
Qed.

Lemma effects_fields_ones (m : nat) (cs : list call) (i : Z) :
  Forall (valid_call m) cs -> Forall writes_one cs -> 0 <= i ->
  forall (d : LabThreadSafeData) (x : Z),
    fields d !! Z.to_nat i = Some x ->
    fields (effects cs d) !! Z.to_nat i
    = Some (if 0 <? writes_of i cs then 1 else x).
Proof.
  intros Hcs Hone Hi. induction Hcs as [|c0 cs Hc0 _ IH]; intros d x Hx.
  - exact Hx.
  - apply Forall_cons in Hone as [H1 Hone]. specialize (IH Hone).
    unfold writes_of in *. cbn [map sumZ].
    pose proof (sumZ_map_nonneg (is_write i) (fun c => proj1 (is_write_range i c)) cs).
    change (effects (c0 :: cs) d) with (effects cs (effect c0 d)).
    destruct c0 as [j | j v |]; cbn [is_write effect fields valid_call writes_one] in *;
      rewrite ?Z.add_0_l; try (apply IH; exact Hx).
    subst v. destruct (j =? i) eqn:E.
    + apply Z.eqb_eq in E. subst j.
      rewrite (IH _ 1) by (apply list_lookup_insert_eq; eapply lookup_lt_Some; exact Hx).
      replace (0 <? 1 + sumZ (map (is_write i) cs)) with true
        by (symmetry; apply Z.ltb_lt; lia).
      destruct (0 <? sumZ (map (is_write i) cs)); reflexivity.
    + apply Z.eqb_neq in E. rewrite Z.add_0_l. apply IH. cbn [fields].
      rewrite list_lookup_insert_ne by lia. exact Hx.
Qed.

Lemma planned_counts (n1 n2 n3 n4 n5 n6 n7 : Z) (pad : nat) :
  let cs := planned_calls n1 n2 n3 n4 n5 n6 n7 ++ replicate pad CallString in
  reads_of 0 cs = Z.max 0 n1 /\ writes_of 0 cs = Z.max 0 n2
  /\ reads_of 1 cs = Z.max 0 n3 /\ writes_of 1 cs = Z.max 0 n4
  /\ reads_of 2 cs = Z.max 0 n5 /\ writes_of 2 cs = Z.max 0 n6
  /\ strings_of cs = Z.max 0 n7 + Z.of_nat pad
  /\ Z.of_nat (length cs)
     = Z.max 0 n1 + Z.max 0 n2 + Z.max 0 n3 + Z.max 0 n4 + Z.max 0 n5
       + Z.max 0 n6 + Z.max 0 n7 + Z.of_nat pad.
Proof.
  cbv zeta. unfold reads_of, writes_of, strings_of, planned_calls.
  rewrite !map_app, !sumZ_app, !sumZ_map_replicate, !length_app,
    !length_replicate.
  cbn [is_read is_write is_string Z.eqb Pos.eqb].
  repeat split; lia.
Qed.

(** X15. Replaying a generated file on a fresh store of at least three
    fields, as [main] does, is always defined, and the store it leaves does
    not depend on how the file was shuffled: the read and write counters of
    fields 0, 1 and 2 are the lengths of the six read and write loops of the
    generator, the string counter is the length of the string loop plus the
    padding, the global counter is the number of lines, and a field holds 1
    if it was written at all and 0 otherwise. *)
Theorem generated_file_replays (shuffle : list string -> list string)
    (fuel : nat) (num_ops : Z) (percents : OpsPercent)
    (c1 c2 c3 c4 c5 c6 c7 : Z) (m : nat) :
  (forall l, Permutation l (shuffle l)) ->
  op_count num_ops (read1 percents) = Some c1 ->
  op_count num_ops (write1 percents) = Some c2 ->
  op_count num_ops (read2 percents) = Some c3 ->
  op_count num_ops (write2 percents) = Some c4 ->
  op_count num_ops (read3 percents) = Some c5 ->
  op_count num_ops (write3 percents) = Some c6 ->
  op_count num_ops (string_op percents) = Some c7 ->
  Z.of_nat (length (planned_calls c1 c2 c3 c4 c5 c6 c7)) <= INT_MAX ->
  num_ops <= INT_MAX ->
  (Z.to_nat (num_ops - Z.of_nat (length (planned_calls c1 c2 c3 c4 c5 c6 c7)))
   < fuel)%nat ->
  (3 <= m)%nat ->
  exists content d,
    generateFile shuffle fuel num_ops percents = Some content
    /\ executeFile (LabThreadSafeData_ctor m) (Some content) = Some d
    /\ vec_get (read_count d) 0 = Some (Z.max 0 c1)
    /\ vec_get (write_count d) 0 = Some (Z.max 0 c2)
    /\ vec_get (read_count d) 1 = Some (Z.max 0 c3)
    /\ vec_get (write_count d) 1 = Some (Z.max 0 c4)
    /\ vec_get (read_count d) 2 = Some (Z.max 0 c5)
    /\ vec_get (write_count d) 2 = Some (Z.max 0 c6)
    /\ string_count d
       = Z.max 0 c7
         + Z.max 0 (num_ops
                    - Z.of_nat (length (planned_calls c1 c2 c3 c4 c5 c6 c7)))
    /\ total_ops d
       = Z.max num_ops (Z.of_nat (length (planned_calls c1 c2 c3 c4 c5 c6 c7)))
    /\ vec_get (fields d) 0 = Some (if 0 <? c2 then 1 else 0)
    /\ vec_get (fields d) 1 = Some (if 0 <? c4 then 1 else 0)
    /\ vec_get (fields d) 2 = Some (if 0 <? c6 then 1 else 0).
Proof.
  intros Hshuffle H1 H2 H3 H4 H5 H6 H7 Hlen Hn Hfuel Hm.
  pose proof (kind_ops_planned _ _ _ _ _ _ _ _ _ H1 H2 H3 H4 H5 H6 H7) as Hks.
  set (pc := planned_calls c1 c2 c3 c4 c5 c6 c7) in *.
  set (pad := Z.to_nat (num_ops - Z.of_nat (length pc))) in *.
  set (kcalls := pc ++ replicate pad CallString).
  assert (Hops : generate_ops fuel num_ops percents
                 = Some (map line_of_call kcalls)).
  { unfold generate_ops. rewrite Hks.
    rewrite pad_loop_pads; rewrite ?length_map; try assumption.
    subst kcalls. rewrite map_app, map_replicate. reflexivity. }
  destruct (Permutation_map_inv line_of_call kcalls
              (Permutation_sym (Hshuffle (map line_of_call kcalls))))
    as (calls' & Ecalls & Hperm).
  pose proof (Permutation_Forall Hperm
                (planned_calls_ok m c1 c2 c3 c4 c5 c6 c7 pad Hm)) as Hok.
  assert (Hint : Forall int_call calls')
    by (eapply Forall_impl; [exact Hok | intros c (H & _ & _); exact H]).
  assert (Hval : Forall (valid_call m) calls')
    by (eapply Forall_impl; [exact Hok | intros c (_ & H & _); exact H]).
  assert (Hone : Forall writes_one calls')
    by (eapply Forall_impl; [exact Hok | intros c (_ & _ & H); exact H]).
  destruct (planned_counts c1 c2 c3 c4 c5 c6 c7 pad)
    as (R0 & W0 & R1 & W1 & R2 & W2 & S & L).
  fold pc kcalls in R0, W0, R1, W1, R2, W2, S, L.
  unfold reads_of, writes_of, strings_of in R0, W0, R1, W1, R2, W2, S.
  rewrite (sumZ_map_perm (is_read 0) _ _ Hperm) in R0.
  rewrite (sumZ_map_perm (is_read 1) _ _ Hperm) in R1.
  rewrite (sumZ_map_perm (is_read 2) _ _ Hperm) in R2.
  rewrite (sumZ_map_perm (is_write 0) _ _ Hperm) in W0.
  rewrite (sumZ_map_perm (is_write 1) _ _ Hperm) in W1.
  rewrite (sumZ_map_perm (is_write 2) _ _ Hperm) in W2.
  rewrite (sumZ_map_perm is_string _ _ Hperm) in S.
  rewrite (Permutation_length Hperm) in L.
  assert (Hpc : Z.of_nat (length pc)
                = Z.max 0 c1 + Z.max 0 c2 + Z.max 0 c3 + Z.max 0 c4
                  + Z.max 0 c5 + Z.max 0 c6 + Z.max 0 c7).
  { subst kcalls. rewrite (Permutation_length (Permutation_sym Hperm)) in L.
    rewrite length_app, length_replicate in L. lia. }
  assert (Hsmall : Z.of_nat (length calls') < SIZE_MODULUS)
    by (unfold SIZE_MODULUS, INT_MAX in *; lia).
  pose proof (fun i => sumZ_map_le_length (is_read i) calls' (is_read_range i)) as Br.
  pose proof (fun i => sumZ_map_le_length (is_write i) calls' (is_write_range i)) as Bw.
  pose proof (sumZ_map_le_length is_string calls' is_string_range) as Bs.
  destruct (run_effects m calls' (LabThreadSafeData_ctor m) (ctor_has_size m) Hval)
    as [Erun (Hf & Hr & Hw)].
  exists (write_lines (shuffle (map line_of_call kcalls))),
         (effects calls' (LabThreadSafeData_ctor m)).
  split; [unfold generateFile; rewrite Hops; reflexivity|].
  split.
  { rewrite Ecalls. unfold executeFile. rewrite getlines_write_lines.
    - rewrite exec_lines_of_calls by exact Hint. exact Erun.
    - apply Forall_map. apply Forall_forall. intros c _.
      apply has_newline_line_of_call. }
  assert (Rd : forall i, 0 <= i < 3 ->
             vec_get (read_count (effects calls' (LabThreadSafeData_ctor m))) i
             = Some (sumZ (map (is_read i) calls'))).
  { intros i Hi. unfold vec_get. rewrite in_range_true by lia.
    apply (effects_read_count m calls' i Hval (proj1 Hi) (LabThreadSafeData_ctor m) 0).
    - cbn. apply lookup_replicate_2. lia.
    - lia.
    - specialize (Br i). unfold reads_of. lia. }
  assert (Wr : forall i, 0 <= i < 3 ->
             vec_get (write_count (effects calls' (LabThreadSafeData_ctor m))) i
             = Some (sumZ (map (is_write i) calls'))).
  { intros i Hi. unfold vec_get. rewrite in_range_true by lia.
    apply (effects_write_count m calls' i Hval (proj1 Hi) (LabThreadSafeData_ctor m) 0).
    - cbn. apply lookup_replicate_2. lia.
    - lia.
    - specialize (Bw i). unfold writes_of. lia. }
  assert (Fd : forall i, 0 <= i < 3 ->
             vec_get (fields (effects calls' (LabThreadSafeData_ctor m))) i
             = Some (if 0 <? sumZ (map (is_write i) calls') then 1 else 0)).
  { intros i Hi. unfold vec_get. rewrite in_range_true by lia.
    apply (effects_fields_ones m calls' i Hval Hone (proj1 Hi)
             (LabThreadSafeData_ctor m) 0).
    cbn. apply lookup_replicate_2. lia. }
  destruct (effects_scalar_counts calls' (LabThreadSafeData_ctor m))
    as [Es Et]; try (cbn; unfold strings_of; lia).
  cbn [string_count total_ops LabThreadSafeData_ctor] in Es, Et.
  unfold strings_of in Es.
  rewrite (Rd 0), (Rd 1), (Rd 2), (Wr 0), (Wr 1), (Wr 2),
    (Fd 0), (Fd 1), (Fd 2) by lia.
  rewrite R0, R1, R2, W0, W1, W2, Es, Et, S.
  assert (Hif : forall c, (if 0 <? Z.max 0 c then 1 else 0)
                          = (if 0 <? c then 1 else 0)).
  { intros c. destruct (0 <? c) eqn:E.
    - apply Z.ltb_lt in E. replace (0 <? Z.max 0 c) with true; [reflexivity|].
      symmetry. apply Z.ltb_lt. lia.
    - apply Z.ltb_ge in E. replace (0 <? Z.max 0 c) with false; [reflexivity|].
      symmetry. apply Z.ltb_ge. lia. }
  rewrite !Hif.
  repeat split; try reflexivity; subst pad; lia.
Qed.

Lemma generated_file_replays_witness :
  exists content d,
    generateFile (@rev string) 1 100000 percents_a = Some content
    /\ executeFile (LabThreadSafeData_ctor 3) (Some content) = Some d
    /\ vec_get (read_count d) 0 = Some 10000
    /\ vec_get (write_count d) 0 = Some 10000
    /\ vec_get (read_count d) 1 = Some 50000
    /\ vec_get (write_count d) 1 = Some 10000
    /\ vec_get (read_count d) 2 = Some 5000
    /\ vec_get (write_count d) 2 = Some 5000
    /\ string_count d = 10000
    /\ total_ops d = 100000
    /\ vec_get (fields d) 0 = Some 1
    /\ vec_get (fields d) 1 = Some 1
    /\ vec_get (fields d) 2 = Some 1.
Proof.
  apply (generated_file_replays (@rev string) 1 100000 percents_a
           10000 10000 50000 10000 5000 5000 10000 3
           (@Permutation_rev string)).
  - vm_compute. reflexivity.
  - vm_compute. reflexivity.
  - vm_compute. reflexivity.
  - vm_compute. reflexivity.
  - vm_compute. reflexivity.
  - vm_compute. reflexivity.
  - vm_compute. reflexivity.
  - vm_compute. discriminate.
  - vm_compute. discriminate.
  - vm_compute. lia.
  - lia.
Defined.

(** X16. Nothing to generate: when none of the seven truncated counts is
    positive and [num_ops] is not positive either (a negative [num_ops]
    with the usual percentages, for instance), the generator writes an empty
    file, and replaying an empty file leaves the store as it is. *)
Theorem generated_file_empty (shuffle : list string -> list string)
    (fuel : nat) (num_ops : Z) (percents : OpsPercent)
    (c1 c2 c3 c4 c5 c6 c7 : Z) (d : LabThreadSafeData) :
  (forall l, Permutation l (shuffle l)) ->
  op_count num_ops (read1 percents) = Some c1 ->
  op_count num_ops (write1 percents) = Some c2 ->
  op_count num_ops (read2 percents) = Some c3 ->
  op_count num_ops (write2 percents) = Some c4 ->
  op_count num_ops (read3 percents) = Some c5 ->
  op_count num_ops (write3 percents) = Some c6 ->
  op_count num_ops (string_op percents) = Some c7 ->
  c1 <= 0 -> c2 <= 0 -> c3 <= 0 -> c4 <= 0 -> c5 <= 0 -> c6 <= 0 -> c7 <= 0 ->
  num_ops <= 0 -> (0 < fuel)%nat ->
  generateFile shuffle fuel num_ops percents = Some EmptyString
  /\ executeFile d (Some EmptyString) = Some d.
Proof.
  intros Hshuffle H1 H2 H3 H4 H5 H6 H7 N1 N2 N3 N4 N5 N6 N7 Hn Hfuel.
  split; [|reflexivity].
  unfold generateFile, generate_ops, kind_ops.
  rewrite H1, H2, H3, H4, H5, H6, H7. unfold push_back_n.
  replace (Z.to_nat c1) with O by lia. replace (Z.to_nat c2) with O by lia.
  replace (Z.to_nat c3) with O by lia. replace (Z.to_nat c4) with O by lia.
  replace (Z.to_nat c5) with O by lia. replace (Z.to_nat c6) with O by lia.
  replace (Z.to_nat c7) with O by lia. cbn [replicate app].
  destruct fuel as [|fuel]; [lia|]. cbn [pad_loop length].
  change (int_of_size_t (Z.of_nat 0)) with 0.
  replace (0 <? num_ops) with false by (symmetry; apply Z.ltb_ge; exact Hn).
  rewrite (Permutation_nil (Hshuffle [])). reflexivity.
Qed.

Lemma generated_file_empty_witness :
  generateFile (@rev string) 1 (-100) percents_a = Some EmptyString
  /\ executeFile (LabThreadSafeData_ctor 3) (Some EmptyString)
     = Some (LabThreadSafeData_ctor 3).
Proof.
  apply (generated_file_empty (@rev string) 1 (-100) percents_a
           (-10) (-10) (-50) (-10) (-5) (-5) (-10) (LabThreadSafeData_ctor 3)
           (@Permutation_rev string));
    try (vm_compute; reflexivity); lia.
Defined.

(** ** The fields after a run *)

Lemma effects_last_write (m : nat) (cs : list call) (i : Z) :
  Forall (valid_call m) cs -> 0 <= i ->
  forall (d : LabThreadSafeData) (x : Z),
    fields d !! Z.to_nat i = Some x ->
    fields (effects cs d) !! Z.to_nat i = Some (last_write i cs x).
Proof.
  intros Hcs Hi. induction Hcs as [|c0 cs Hc0 _ IH]; intros d x Hx.
  - exact Hx.
  - change (effects (c0 :: cs) d) with (effects cs (effect c0 d)).
    destruct c0 as [j | j v |]; cbn [last_write effect valid_call] in *;
      try (apply IH; exact Hx).
    apply IH. cbn [fields]. destruct (j =? i) eqn:E.
    + apply Z.eqb_eq in E. subst j. apply list_lookup_insert_eq.
      eapply lookup_lt_Some. exact Hx.
    + apply Z.eqb_neq in E. rewrite list_lookup_insert_ne by lia. exact Hx.
Qed.

(** X17. After any sequence of calls in range on a constructed store, field
    [i] holds the value of the last [writeField(i, _)] of the sequence, or
    0 when the sequence has none, and that is what [readField(i)] returns
    next. *)
Theorem fields_hold_last_write (m : nat) (cs : list call) (i : Z) :
  Forall (valid_call m) cs -> 0 <= i < Z.of_nat m ->
  exists d d',
    run cs (LabThreadSafeData_ctor m) = Some d
    /\ vec_get (fields d) i = Some (last_write i cs 0)
    /\ readField d i = Some (last_write i cs 0, d').
Proof.
  intros Hcs Hi.
  destruct (run_effects m cs (LabThreadSafeData_ctor m) (ctor_has_size m) Hcs)
    as [E Hsz].
  assert (Hv : vec_get (fields (effects cs (LabThreadSafeData_ctor m))) i
               = Some (last_write i cs 0)).
  { unfold vec_get. destruct Hsz as (Hf & _). rewrite in_range_true by lia.
    apply (effects_last_write m cs i Hcs (proj1 Hi)).
    cbn. apply lookup_replicate_2. lia. }
  destruct (readField_eq m _ i Hsz Hi) as (x & rc & Hx & _ & Er).
  rewrite Hv in Hx. injection Hx as <-.
  eexists _, _. split; [exact E|]. split; [exact Hv | exact Er].
Qed.

Lemma fields_hold_last_write_witness :
  exists d d',
    run [CallWrite 1 5; CallRead 1; CallWrite 0 2; CallWrite 1 8; CallString]
        (LabThreadSafeData_ctor 3) = Some d
    /\ vec_get (fields d) 1 = Some 8
    /\ readField d 1 = Some (8, d').
Proof.
  apply (fields_hold_last_write 3
           [CallWrite 1 5; CallRead 1; CallWrite 0 2; CallWrite 1 8; CallString] 1).
  - repeat constructor; cbn; lia.
  - lia.
Defined.

(** ** Several workers on one store, call by call *)

Lemma concat_all_nil (ws : list (list call)) :
  Forall (fun w => w = []) ws -> concat ws = [].
Proof. induction 1 as [|w ws -> _ IH]; cbn [concat]; [reflexivity | exact IH]. Qed.

Lemma concat_take_call (ws : list (list call)) (k : nat) (c : call)
    (rest : list call) :
  ws !! k = Some (c :: rest) ->
  Permutation (concat ws) (c :: concat (<[k := rest]> ws)).
Proof.
  revert k. induction ws as [|w ws IH]; intros k Hk; [discriminate|].
  destruct k as [|k]; simpl in *.
  - injection Hk as ->. reflexivity.
  - specialize (IH k Hk). rewrite IH.
    apply Permutation_sym, Permutation_middle.
Qed.

Lemma interleaving_perm (ws : list (list call)) (cs : list call) :
  interleaving ws cs -> Permutation (concat ws) cs.
Proof.
  induction 1 as [ws Hall | ws k c rest cs Hk _ IH].
  - rewrite (concat_all_nil ws Hall). constructor.
  - rewrite (concat_take_call ws k c rest Hk). apply perm_skip. exact IH.
Qed.

Lemma effects_fields_perm (m : nat) (cs cs' : list call) (d : LabThreadSafeData) :
  has_size m d ->
  Forall (valid_call m) cs -> Forall writes_one cs -> Permutation cs cs' ->
  fields (effects cs d) = fields (effects cs' d).
Proof.
  intros Hd Hval Hone Hperm.
  pose proof (Permutation_Forall Hperm Hval) as Hval'.
  pose proof (Permutation_Forall Hperm Hone) as Hone'.
  destruct (run_effects m cs d Hd Hval) as [_ (Hf & _)].
  destruct (run_effects m cs' d Hd Hval') as [_ (Hf' & _)].
  apply list_eq. intros k.
  destruct (fields d !! k) as [x|] eqn:Hx.
  - rewrite <- (Nat2Z.id k) in Hx |- *.
    rewrite (effects_fields_ones m cs (Z.of_nat k) Hval Hone
               (Nat2Z.is_nonneg k) d x Hx).
    rewrite (effects_fields_ones m cs' (Z.of_nat k) Hval' Hone'
               (Nat2Z.is_nonneg k) d x Hx).
    unfold writes_of. rewrite (sumZ_map_perm _ _ _ Hperm). reflexivity.
  - apply lookup_ge_None in Hx. destruct Hd as (Hfd & _).
    rewrite (proj2 (lookup_ge_None _ _)) by lia.
    rewrite (proj2 (lookup_ge_None _ _)) by lia. reflexivity.
Qed.

(** X18. Several workers on one store, each call made as a whole: whatever
    the interleaving of their call sequences, the counters end as if the
    workers had run one after the other; and when every write writes 1, as
    in every generated file, so do the fields, that is the whole store. *)
Theorem interleaving_independent (m : nat) (d : LabThreadSafeData)
    (ws : list (list call)) (cs : list call) :
  has_size m d -> Forall (Forall (valid_call m)) ws -> interleaving ws cs ->
  exists d1 d2,
    run cs d = Some d1 /\ run (concat ws) d = Some d2
    /\ counters d1 = counters d2
    /\ (Forall (Forall writes_one) ws -> d1 = d2).
Proof.
  intros Hd Hws Hil. pose proof (interleaving_perm ws cs Hil) as Hperm.
  assert (Hval : Forall (valid_call m) (concat ws)).
  { clear Hil Hperm. induction Hws as [|w ws Hw _ IH]; cbn [concat]; [constructor|].
    apply Forall_app. split; assumption. }
  pose proof (Permutation_Forall Hperm Hval) as Hval'.
  destruct (run_effects m cs d Hd Hval') as [E1 _].
  destruct (run_effects m (concat ws) d Hd Hval) as [E2 _].
  exists (effects cs d), (effects (concat ws) d).
  split; [exact E1|]. split; [exact E2|].
  assert (Hc : counters (effects cs d) = counters (effects (concat ws) d))
    by (apply effects_counters_perm; [apply Permutation_sym; exact Hperm | reflexivity]).
  split; [exact Hc|]. intros Hone.
  assert (Hone' : Forall writes_one (concat ws)).
  { clear Hil Hperm Hval Hval' E1 E2 Hc Hws.
    induction Hone as [|w ws Hw _ IH]; cbn [concat]; [constructor|].
    apply Forall_app. split; assumption. }
  pose proof (effects_fields_perm m (concat ws) cs d Hd Hval Hone' Hperm) as Hf.
  unfold counters in Hc. injection Hc as Hr Hw Hs Ht.
  destruct (effects cs d), (effects (concat ws) d). cbn in *. congruence.
Qed.

Lemma interleaving_independent_witness :
  exists d1 d2,
    run [CallWrite 0 1; CallRead 0; CallString; CallRead 1]
        (LabThreadSafeData_ctor 2) = Some d1
    /\ run (concat [[CallWrite 0 1; CallString]; [CallRead 0; CallRead 1]])
           (LabThreadSafeData_ctor 2) = Some d2
    /\ counters d1 = counters d2
    /\ (Forall (Forall writes_one)
          [[CallWrite 0 1; CallString]; [CallRead 0; CallRead 1]] -> d1 = d2).
Proof.
  apply (interleaving_independent 2 (LabThreadSafeData_ctor 2)
           [[CallWrite 0 1; CallString]; [CallRead 0; CallRead 1]]
           [CallWrite 0 1; CallRead 0; CallString; CallRead 1]).
  - repeat split.
  - repeat constructor; cbn; lia.
  - apply (interleaving_call _ 0 (CallWrite 0 1) [CallString]); [reflexivity|].
    apply (interleaving_call _ 1 (CallRead 0) [CallRead 1]); [reflexivity|].
    apply (interleaving_call _ 0 CallString []); [reflexivity|].
    apply (interleaving_call _ 1 (CallRead 1) []); [reflexivity|].
    apply interleaving_done. repeat constructor.
Defined.
